(** * Browser file-picker filter translation (qlocalfileapi.cpp)

    A shallow embedding of [LocalFileApi]: the translation of Qt file-dialog
    name filters such as ["Images (*.png *.jpg)"] into the options object of
    the browser's file picker.

    The source is a handful of regular expressions driven by
    [QRegularExpression::match].  The embedding keeps that structure: the
    patterns are values of a small regular-expression syntax, run by a
    backtracking matcher with the matching discipline of PCRE (leftmost
    start, ordered alternation, greedy quantifiers, capture groups recorded
    as offset pairs), and the C++ functions are transcribed on top of it. *)

From Stdlib Require Import List NArith ZArith Arith Bool String Ascii Lia.
Import ListNotations.

Set Implicit Arguments.

(** ** Strings *)

(** A [QString] is modelled as the list of its characters, a character as
    its Unicode code point: a surrogate pair is one character, and a code
    point in the surrogate range stands for a surrogate without its
    partner.  [std::string] values only ever hold text that came out of a
    [QString] (or goes into a JavaScript string), so they are modelled the
    same way and [toStdString] is the identity. *)
Definition QChar := N.
Definition QString := list QChar.
Definition QStringList := list QString.
Definition std_string := list QChar.

Definition ch (a : ascii) : QChar := N_of_ascii a.
Definition qs (s : string) : QString := map ch (list_ascii_of_string s).

(** [QChar::isSpace]: the ASCII white space, NEL, NBSP and the Unicode
    separator categories Zs, Zl and Zp. *)
Definition QChar_isSpace (c : QChar) : bool :=
  (c =? 32)%N || ((9 <=? c) && (c <=? 13))%N
  || (c =? 133)%N || (c =? 160)%N
  || (c =? 5760)%N || ((8192 <=? c) && (c <=? 8202))%N
  || (c =? 8232)%N || (c =? 8233)%N || (c =? 8239)%N
  || (c =? 8287)%N || (c =? 12288)%N.

Fixpoint takeWhile (p : QChar -> bool) (s : QString) : QString :=
  match s with
  | c :: t => if p c then c :: takeWhile p t else []
  | [] => []
  end.

Fixpoint dropWhile (p : QChar -> bool) (s : QString) : QString :=
  match s with
  | c :: t => if p c then dropWhile p t else s
  | [] => []
  end.

(** [QChar::isSurrogate]. *)
Definition isSurrogate (c : QChar) : bool :=
  ((55296 <=? c) && (c <=? 57343))%N.

(** Well-formed UTF-16: no surrogate without its partner. *)
Definition validUtf16 (s : QString) : bool :=
  forallb (fun c => negb (isSurrogate c)) s.

(** [QStringView::trimmed]: white space removed from both ends. *)
Definition trimmed (s : QString) : QString :=
  rev (dropWhile QChar_isSpace (rev (dropWhile QChar_isSpace s))).

(** [QStringView::mid(start, len)]. *)
Definition mid (s : QString) (start len : nat) : QString :=
  firstn len (skipn start s).

(** ** Regular expressions

    The constructs the patterns of the source use.  Every quantifier in
    them applies to a single-character atom (a literal, a bracket
    expression or [\s]), so atoms are predicates on characters and the
    quantifiers take an atom. *)
Definition atom := QChar -> bool.

Definition lit (a : ascii) : atom := fun c => (c =? ch a)%N.
Definition oneOf (l : list ascii) : atom :=
  fun c => existsb (fun a => (c =? ch a)%N) l.
Definition noneOf (l : list ascii) : atom := fun c => negb (oneOf l c).

(** [\s] without the Unicode-properties option: space, \t, \n, \v, \f, \r. *)
Definition space : atom :=
  fun c => (c =? 32)%N || ((9 <=? c) && (c <=? 13))%N.
Definition nonSpace : atom := fun c => negb (space c).

Inductive regex : Type :=
| One (a : atom)               (* a      *)
| Star (a : atom)              (* a*     *)
| Plus (a : atom)              (* a+     *)
| Opt (a : atom)               (* a?     *)
| Seq (r1 r2 : regex)          (* r1r2   *)
| Alt (r1 r2 : regex)          (* r1|r2  *)
| Group (n : nat) (r : regex)  (* (r), the n-th capture group *)
| Bos                          (* \A     *)
| Eos.                         (* \z     *)

Declare Scope regex_scope.
Delimit Scope regex_scope with re.
Bind Scope regex_scope with regex.
Infix ";;" := Seq (at level 40, left associativity) : regex_scope.
Infix "|||" := Alt (at level 50, left associativity) : regex_scope.

(** The matcher state: the offset reached in the subject, the part of the
    subject from there on, and the capture groups set so far as
    (start, end) offset pairs, most recent first. *)
Record mstate : Type := MState {
  pos : nat;
  rest : QString;
  caps : list (nat * (nat * nat))
}.

Definition cont := mstate -> option mstate.

Definition orElse (x : option mstate) (y : option mstate) : option mstate :=
  match x with Some _ => x | None => y end.

(** Greedy repetition of an atom: as many characters as possible first,
    one fewer each time the continuation fails. *)
Fixpoint star (a : atom) (k : cont) (p : nat) (s : QString)
    (cs : list (nat * (nat * nat))) : option mstate :=
  match s with
  | c :: t =>
      if a c
      then orElse (star a k (S p) t cs) (k (MState p s cs))
      else k (MState p s cs)
  | [] => k (MState p s cs)
  end.

Definition setCap (n : nat) (from : nat) (st : mstate) : mstate :=
  MState (pos st) (rest st) ((n, (from, pos st)) :: caps st).

(** [run r k st]: match [r] at [st], then the continuation [k]; a failure
    of [k] backtracks into [r]. *)
Fixpoint run (r : regex) (k : cont) (st : mstate) : option mstate :=
  match r with
  | One a =>
      match rest st with
      | c :: t => if a c then k (MState (S (pos st)) t (caps st)) else None
      | [] => None
      end
  | Star a => star a k (pos st) (rest st) (caps st)
  | Plus a =>
      match rest st with
      | c :: t => if a c then star a k (S (pos st)) t (caps st) else None
      | [] => None
      end
  | Opt a =>
      match rest st with
      | c :: t =>
          if a c
          then orElse (k (MState (S (pos st)) t (caps st))) (k st)
          else k st
      | [] => k st
      end
  | Seq r1 r2 => run r1 (run r2 k) st
  | Alt r1 r2 => orElse (run r1 k st) (run r2 k st)
  | Group n r' => run r' (fun st' => k (setCap n (pos st) st')) st
  | Bos => if pos st =? 0 then k st else None
  | Eos => match rest st with [] => k st | _ :: _ => None end
  end.

(** The unanchored search: the first start offset, from [p] on, at which
    the pattern matches. *)
Fixpoint search (r : regex) (p : nat) (s : QString) : option (nat * mstate) :=
  match run r Some (MState p s []) with
  | Some st => Some (p, st)
  | None =>
      match s with
      | [] => None
      | _ :: t => search r (S p) t
      end
  end.

(** A successful [QRegularExpressionMatch]; [hasMatch()] is modelled by the
    option around it. *)
Record QRegularExpressionMatch : Type := Match {
  subject : QString;
  matchStart : nat;
  matchEnd : nat;
  captured : list (nat * (nat * nat))
}.

(** [QRegularExpression::match(subject, offset)].  With the default match
    options the part of the subject from [offset] on is first checked to
    be well-formed UTF-16; when it is not, the match is invalid and
    [hasMatch()] is false. *)
Definition regex_match (r : regex) (subj : QString) (offset : nat)
    : option QRegularExpressionMatch :=
  if offset <=? List.length subj then
    if validUtf16 (skipn offset subj) then
      match search r offset (skipn offset subj) with
      | Some (p, st) => Some (Match subj p (pos st) (caps st))
      | None => None
      end
    else None
  else None.

Fixpoint lookupCap (n : nat) (cs : list (nat * (nat * nat)))
    : option (nat * nat) :=
  match cs with
  | (m, se) :: cs' => if m =? n then Some se else lookupCap n cs'
  | [] => None
  end.

Definition groupOffsets (m : QRegularExpressionMatch) (n : nat)
    : option (nat * nat) :=
  match n with
  | 0 => Some (matchStart m, matchEnd m)
  | _ => lookupCap n (captured m)
  end.

Definition hasCaptured (m : QRegularExpressionMatch) (n : nat) : bool :=
  match groupOffsets m n with Some _ => true | None => false end.

(** A group that did not take part in the match gives the null view. *)
Definition capturedView (m : QRegularExpressionMatch) (n : nat) : QString :=
  match groupOffsets m n with
  | Some (s, e) => mid (subject m) s (e - s)
  | None => []
  end.

Definition capturedEnd (m : QRegularExpressionMatch) : nat := matchEnd m.

(** [QRegularExpression::anchoredPattern(e)] is [\A(?:e)\z]. *)
Definition anchoredPattern (r : regex) : regex := (Bos ;; r ;; Eos)%re.

Set Warnings "-register-all".

(** ** JavaScript values ([emscripten::val])

    An array is the list of its elements; an object is the list of its
    properties in insertion order, each key once. *)
Inductive val : Type :=
| VString (s : std_string)
| VBool (b : bool)
| VArray (elems : list val)
| VObject (props : list (string * val)).

Definition object := list (string * val).

(** [o.set(key, v)]: overwrite the property if it is there, else add it. *)
Fixpoint set (key : string) (v : val) (o : object) : object :=
  match o with
  | (k, w) :: o' =>
      if String.eqb k key then (k, v) :: o' else (k, w) :: set key v o'
  | [] => [(key, v)]
  end.

(** [o[key]]; [None] stands for [undefined], the key being absent. *)
Fixpoint get (key : string) (o : object) : option val :=
  match o with
  | (k, w) :: o' => if String.eqb k key then Some w else get key o'
  | [] => None
  end.

(** [a.call<void>("push", v)]. *)
Definition push (a : list val) (v : val) : list val := a ++ [v].

(** ** The patterns of the source *)

(** The pattern of [Type::fromQt], spaced out for reading:
    [(?: (?: ( [^(]* ) \( ( [^()]+ ) \) [^)]* ) | ( [^()]+ ) )]. *)
Definition typeRegex : regex :=
  (Group 1 (Star (noneOf ["("%char])) ;; One (lit "(")
     ;; Group 2 (Plus (noneOf ["("%char; ")"%char])) ;; One (lit ")")
     ;; Star (noneOf [")"%char])
   ||| Group 3 (Plus (noneOf ["("%char; ")"%char])))%re.

(** The pattern of [Type::Accept::fromQt]: [( [^\s]+ ) \s*]. *)
Definition internalRegex : regex :=
  (Group 1 (Plus nonSpace) ;; Star space)%re.

(** The accept-all pattern of [Extension::fromQt], anchored:
    [[*]+ | [*]+ \. [*]+]. *)
Definition qtAcceptAllRegex : regex :=
  anchoredPattern
    (Plus (oneOf ["*"%char])
     ||| Plus (oneOf ["*"%char]) ;; One (lit ".") ;; Plus (oneOf ["*"%char]))%re.

(** The file-name pattern of [Extension::fromQt], anchored:
    [( \*? ) ( \. [^*]+ )]. *)
Definition qtFilenameMatcherRegex : regex :=
  anchoredPattern
    (Group 1 (Opt (lit "*"))
     ;; Group 2 (One (lit ".") ;; Plus (noneOf ["*"%char])))%re.

(** ** Type::Accept::MimeType::Extension *)

Record Extension : Type := MkExtension { ext_storage : std_string }.

Definition Extension_new (extension : QString) : Extension :=
  MkExtension extension.

Definition Extension_asVal (e : Extension) : val := VString (ext_storage e).

Definition Extension_fromQt (qtRepresentation : QString) : option Extension :=
  match regex_match qtAcceptAllRegex qtRepresentation 0 with
  | Some _ => None
  | None =>
      match regex_match qtFilenameMatcherRegex qtRepresentation 0 with
      | Some extensionMatch =>
          Some (Extension_new (capturedView extensionMatch 2))
      | None => None
      end
  end.

(** ** Type::Accept::MimeType *)

Record MimeType : Type := MkMimeType { mime_storage : list val }.

Definition MimeType_new : MimeType := MkMimeType [].

Definition MimeType_addExtension (m : MimeType) (extension : Extension)
    : MimeType :=
  MkMimeType (push (mime_storage m) (Extension_asVal extension)).

Definition MimeType_asVal (m : MimeType) : val := VArray (mime_storage m).

(** ** Type::Accept *)

Record Accept : Type := MkAccept { accept_storage : object }.

Definition Accept_new : Accept := MkAccept [].

Definition Accept_addMimeType (a : Accept) (mimeType : MimeType) : Accept :=
  MkAccept
    (set "application/octet-stream" (MimeType_asVal mimeType)
       (accept_storage a)).

Definition Accept_asVal (a : Accept) : val := VObject (accept_storage a).

(** The [while] loop of [Type::Accept::fromQt].  Each turn of the loop takes
    one unit of [fuel]; [Accept_fromQt_run_spec] below shows that the
    fuel [Accept_fromQt] supplies is never used up. *)
Inductive loop_result : Type :=
| OutOfFuel
| ReturnNullopt
| LoopExit (mimeType : MimeType).

Fixpoint Accept_fromQt_loop (fuel : nat) (qtRepresentation : QString)
    (internalMatch : option QRegularExpressionMatch) (mimeType : MimeType)
    : loop_result :=
  match fuel with
  | 0 => OutOfFuel
  | S fuel' =>
      match internalMatch with
      | None => LoopExit mimeType
      | Some m =>
          match Extension_fromQt (capturedView m 1) with
          | None => ReturnNullopt
          | Some webExtension =>
              Accept_fromQt_loop fuel' qtRepresentation
                (regex_match internalRegex qtRepresentation (capturedEnd m))
                (MimeType_addExtension mimeType webExtension)
          end
      end
  end.

Definition Accept_fromQt_run (qtRepresentation : QString) : loop_result :=
  Accept_fromQt_loop (S (List.length qtRepresentation)) qtRepresentation
    (regex_match internalRegex qtRepresentation 0) MimeType_new.

Definition Accept_fromQt (qtRepresentation : QString) : option Accept :=
  match Accept_fromQt_run qtRepresentation with
  | LoopExit mimeType => Some (Accept_addMimeType Accept_new mimeType)
  | ReturnNullopt => None
  | OutOfFuel => None
  end.

(** ** Type *)

Record Type_ : Type := MkType { type_storage : object }.

Definition Type_new (description : QString) (accept : option Accept) : Type_ :=
  let m_storage := set "description" (VString (trimmed description)) [] in
  match accept with
  | Some a => MkType (set "accept" (Accept_asVal a) m_storage)
  | None => MkType m_storage
  end.

Definition Type_asVal (t : Type_) : val := VObject (type_storage t).

Definition DescriptionIndex : nat := 1.
Definition FilterListFromParensIndex : nat := 2.
Definition PlainFilterListIndex : nat := 3.

Definition Type_fromQt (type : QString) : option Type_ :=
  match regex_match typeRegex type 0 with
  | None => None
  | Some m =>
      let description :=
        if hasCaptured m DescriptionIndex
        then capturedView m DescriptionIndex
        else [] in
      let filterList :=
        capturedView m
          (if hasCaptured m FilterListFromParensIndex
           then FilterListFromParensIndex
           else PlainFilterListIndex) in
      match Accept_fromQt filterList with
      | None => None
      | Some accept => Some (Type_new description (Some accept))
      end
  end.

(** ** The entry points *)

Definition qtFilterListToTypes (filterList : QStringList) : option val :=
  let types :=
    fold_left
      (fun types fileFilter =>
         match Type_fromQt fileFilter with
         | Some type => push types (Type_asVal type)
         | None => types
         end)
      filterList [] in
  if List.length types =? 0 then None else Some (VArray types).

Definition makeOpenFileOptions (filterList : QStringList)
    (acceptMultiple : bool) : val :=
  let options : object := [] in
  let options :=
    match qtFilterListToTypes filterList with
    | Some typeList =>
        set "excludeAcceptAllOption" (VBool true)
          (set "types" typeList options)
    | None => options
    end in
  VObject (set "multiple" (VBool acceptMultiple) options).

Definition makeSaveFileOptions (filterList : QStringList)
    (suggestedName : std_string) : val :=
  let options : object := [] in
  let options :=
    match suggestedName with
    | _ :: _ => set "suggestedName" (VString suggestedName) options
    | [] => options
    end in
  let options :=
    match qtFilterListToTypes filterList with
    | Some typeList => set "types" typeList options
    | None => options
    end in
  VObject options.


(** ** The specification's reading of the parsers

    Definitions written from the specification's words, to be compared
    with the transcriptions of the source above. *)

Definition star_c : QChar := ch "*".
Definition dot_c : QChar := ch ".".
Definition lparen_c : QChar := ch "(".
Definition rparen_c : QChar := ch ")".

Definition isStar : atom := oneOf ["*"%char].
Definition nonStar : atom := noneOf ["*"%char].
Definition notLParen : atom := noneOf ["("%char].
Definition notRParen : atom := noneOf [")"%char].
Definition nonParen : atom := noneOf ["("%char; ")"%char].
Definition isParen : atom := oneOf ["("%char; ")"%char].

Definition nonEmpty (s : QString) : bool :=
  match s with [] => false | _ :: _ => true end.

(** A pure-wildcard token: one or more [*], or one or more [*], a [.] and
    one or more [*]. *)
Definition PureWildcard (t : QString) : Prop :=
  exists n m,
    t = repeat star_c (S n) \/
    t = repeat star_c (S n) ++ dot_c :: repeat star_c (S m).

Definition pureWildcard (t : QString) : bool :=
  nonEmpty (takeWhile isStar t) &&
  match dropWhile isStar t with
  | [] => true
  | d :: z => (d =? dot_c)%N && nonEmpty z && forallb isStar z
  end.

(** The extension of a token: an optional single leading [*], a [.], one
    or more characters other than [*]; the extension starts at the [.]. *)
Definition IsExtensionOf (t e : QString) : Prop :=
  (t = e \/ t = star_c :: e) /\
  exists x, e = dot_c :: x /\ x <> [] /\ Forall (fun c => c <> star_c) x.

Definition dropLeadingStar (t : QString) : QString :=
  match t with
  | c :: t' => if isStar c then t' else t
  | [] => []
  end.

Definition extensionOf (t : QString) : option QString :=
  let e := dropLeadingStar t in
  match e with
  | d :: x => if (d =? dot_c)%N && nonEmpty x && forallb nonStar x
              then Some e else None
  | [] => None
  end.

(** Splitting a text on runs of white space: [cur] is the token being
    read; empty tokens are skipped. *)
Definition flush (cur : QString) : list QString :=
  match cur with [] => [] | _ :: _ => [cur] end.

Fixpoint split_ws (cur : QString) (s : QString) : list QString :=
  match s with
  | [] => flush cur
  | c :: t =>
      if space c then flush cur ++ split_ws [] t
      else split_ws (cur ++ [c]) t
  end.

Definition tokens (s : QString) : list QString := split_ws [] s.

(** All-or-nothing parsing of a list of tokens. *)
Fixpoint parseAll (ts : list QString) : option (list Extension) :=
  match ts with
  | [] => Some []
  | t :: ts' =>
      match Extension_fromQt t with
      | None => None
      | Some e =>
          match parseAll ts' with
          | None => None
          | Some es => Some (e :: es)
          end
      end
  end.

(** The accept rule holding the given extensions as its one MIME group. *)
Definition acceptOf (es : list Extension) : Accept :=
  MkAccept [("application/octet-stream"%string,
             VArray (map Extension_asVal es))].

(** The parenthesised shape read from the start of [s]: the text up to the
    first [(], which must be followed by a non-empty run without
    parentheses and a [)]. *)
Definition parenGroupAt (s : QString) : option (QString * QString) :=
  match dropWhile notLParen s with
  | _ :: t =>
      match takeWhile nonParen t, dropWhile nonParen t with
      | _ :: _, c :: _ =>
          if lit ")" c then Some (takeWhile notLParen s, takeWhile nonParen t)
          else None
      | _, _ => None
      end
  | [] => None
  end.

(** The description (if the parenthesised shape was found) and the
    extension-list text that the scan of a filter spec selects: at each
    start offset in turn, the parenthesised shape, else a run without
    parentheses. *)
Fixpoint typeSplit (s : QString) : option (option QString * QString) :=
  match parenGroupAt s with
  | Some (g1, g2) => Some (Some g1, g2)
  | None =>
      match s with
      | [] => None
      | c :: t =>
          if nonParen c then Some (None, takeWhile nonParen s)
          else typeSplit t
      end
  end.

(** A spec contains the parenthesised shape somewhere: a [(], a non-empty
    run without parentheses, a [)]. *)
Fixpoint hasParenGroup (s : QString) : bool :=
  match s with
  | [] => false
  | c :: t =>
      (lit "(" c && nonEmpty (takeWhile nonParen t) &&
       match dropWhile nonParen t with
       | c' :: _ => lit ")" c'
       | [] => false
       end)
      || hasParenGroup t
  end.

(** The file types of the specs that parse, in input order. *)
Definition acceptedTypes (filterList : QStringList) : list val :=
  flat_map
    (fun fileFilter =>
       match Type_fromQt fileFilter with
       | Some type => [Type_asVal type]
       | None => []
       end)
    filterList.

(** Reading a key of an options object. *)
Definition val_get (key : string) (v : val) : option val :=
  match v with
  | VObject o => get key o
  | _ => None
  end.

(** An extension as the data model asks for it: a [.] first, something
    after it, no [*] anywhere. *)
Definition ValidExtension (e : std_string) : Prop :=
  (exists x, e = dot_c :: x /\ x <> []) /\ ~ In star_c e.

(** A [types] entry whose accepted extensions are all valid. *)
Definition ValidType (t : val) : Prop :=
  exists d es,
    t = VObject [("description"%string, VString d);
                 ("accept"%string,
                  VObject [("application/octet-stream"%string,
                            VArray (map VString es))])]
    /\ Forall ValidExtension es.

(** * The X11 device integration of eglfs (qeglfsx11integration.cpp)

    The parts of [QEglFSX11Integration] and of its [EventReader] thread
    that compute: the dispatch of one event, the event that
    [sendConnectionEvent] builds, and [screenSize].  What the X server and
    the other threads do is an input: the events read, the values of
    [running] seen, the environment variable, the reply to
    [XGetWindowAttributes]. *)

(** The indices of [m_atoms], in the order of [atomNames]. *)
Inductive Atoms : Type :=
| _NET_WM_NAME
| UTF8_STRING
| WM_PROTOCOLS
| WM_DELETE_WINDOW
| _NET_WM_STATE
| _NET_WM_STATE_FULLSCREEN.

Module xcb.
(** The constants of the X protocol that the source names. *)
Definition XCB_CLIENT_MESSAGE : Z := 33.
Definition XCB_ATOM_NONE : Z := 0.
Definition XCB_EVENT_MASK_NO_EVENT : Z := 0.

(** [xcb_client_message_event_t], which the reader also reads a generic
    event through; [data32] is the array [data.data32], five words. *)
Record client_message_event_t : Type := Event {
  response_type : Z;
  format : Z;
  sequence : Z;
  window : Z;
  type : Z;
  data32 : list Z
}.

(** The requests [sendConnectionEvent] issues. *)
Inductive request : Type :=
| send_event (propagate : bool) (destination : Z) (event_mask : Z)
    (event : client_message_event_t)
| flush.
End xcb.

(** A [QWindow] is known by its address. *)
Definition QWindow := N.

(** [QPlatformWindow::window()], possibly null. *)
Record QPlatformWindow : Type := MkPlatformWindow {
  pw_window : option QWindow
}.

Record QSize : Type := MkQSize { wd : Z; ht : Z }.

(** [QSize::isEmpty]: either side is less than 1. *)
Definition QSize_isEmpty (s : QSize) : bool :=
  ((wd s <? 1) || (ht s <? 1))%Z.

(** The members of [QEglFSX11Integration] that the modelled functions
    read or write. *)
Record QEglFSX11Integration : Type := MkIntegration {
  m_atoms : Atoms -> Z;
  m_platformWindow : option QPlatformWindow;
  m_connectionEventListener : Z;
  m_screenSize : QSize
}.

(** The body of the loop of [EventReader::run] on one event: the window
    handed to [QWindowSystemInterface::handleCloseEvent], if any. *)
Definition EventReader_handle (m_integration : QEglFSX11Integration)
    (event : xcb.client_message_event_t) : option QWindow :=
  let response_type :=
    (Z.land (xcb.response_type event) (Z.lnot 0x80) mod 2 ^ 32)%Z in
  if (response_type =? xcb.XCB_CLIENT_MESSAGE)%Z then
    let client := event in
    let atoms := m_atoms m_integration in
    if ((xcb.format client =? 32)
        && (xcb.type client =? atoms WM_PROTOCOLS)
        && (nth 0 (xcb.data32 client) 0 =? atoms WM_DELETE_WINDOW))%Z
    then
      match m_platformWindow m_integration with
      | Some platformWindow => pw_window platformWindow
      | None => None
      end
    else None
  else None.

(** One turn of the loop of [EventReader::run] as the thread sees it: the
    value of [running] it loads, what [xcb_wait_for_event] returns (read
    only when [running] is not zero) and the integration at that time. *)
Record observation : Type := Obs {
  obs_running : Z;
  obs_event : option xcb.client_message_event_t;
  obs_integration : QEglFSX11Integration
}.

(** [EventReader::run] over the turns observed: the close events it
    delivers, in order.  The loop ends at the first turn where [running]
    is zero or no event comes back. *)
Fixpoint EventReader_run (turns : list observation) : list QWindow :=
  match turns with
  | [] => []
  | o :: turns' =>
      if (obs_running o =? 0)%Z then []
      else
        match obs_event o with
        | None => []
        | Some event =>
            match EventReader_handle (obs_integration o) event with
            | Some w => w :: EventReader_run turns'
            | None => EventReader_run turns'
            end
        end
  end.

(** The event [sendConnectionEvent] fills in, after [memset] to zero. *)
Definition connectionEvent (self : QEglFSX11Integration) (a : Z)
    : xcb.client_message_event_t :=
  xcb.Event xcb.XCB_CLIENT_MESSAGE 32 0 (m_connectionEventListener self) a
    [0; 0; 0; 0; 0]%Z.

Definition sendConnectionEvent (self : QEglFSX11Integration) (a : Z)
    : list xcb.request :=
  [xcb.send_event false (m_connectionEventListener self)
     xcb.XCB_EVENT_MASK_NO_EVENT (connectionEvent self a);
   xcb.flush].

(** [QByteArray::split(sep)]: the parts between the separators, empty
    parts kept. *)
Definition QByteArray := list ascii.

Fixpoint QByteArray_split (sep : ascii) (s : QByteArray) : list QByteArray :=
  match s with
  | [] => [[]]
  | c :: t =>
      if Ascii.eqb c sep then [] :: QByteArray_split sep t
      else
        match QByteArray_split sep t with
        | part :: parts => (c :: part) :: parts
        | [] => [[c]]
        end
  end.

Section ScreenSize.
(** [QByteArray::toInt], taken as given. *)
Variable toInt : QByteArray -> Z.

(** [QEglFSX11Integration::screenSize]: [EGLFS_X11_SIZE] is the value of
    the environment variable (empty when unset), [rootAttributes] the
    width and height [XGetWindowAttributes] reports for the root window,
    [None] when it fails.  The result is both the new [m_screenSize] and
    the value returned. *)
Definition screenSize (self : QEglFSX11Integration)
    (EGLFS_X11_SIZE : QByteArray) (rootAttributes : option (Z * Z)) : QSize :=
  if QSize_isEmpty (m_screenSize self) then
    let env := QByteArray_split "x" EGLFS_X11_SIZE in
    if List.length env =? 2 then
      MkQSize (toInt (nth 0 env [])) (toInt (nth 1 env []))
    else
      match rootAttributes with
      | Some (width, height) => MkQSize width height
      | None => m_screenSize self
      end
  else m_screenSize self.
End ScreenSize.

(** The integration with its cached screen size replaced. *)
Definition withScreenSize (self : QEglFSX11Integration) (s : QSize)
    : QEglFSX11Integration :=
  MkIntegration (m_atoms self) (m_platformWindow self)
    (m_connectionEventListener self) s.

(** ** Notions used in the proofs *)

Definition isSome {A : Type} (o : option A) : bool :=
  match o with Some _ => true | None => false end.

(** [stops p s]: [s] is empty or begins with a character outside [p]. *)
Definition stops (p : QChar -> bool) (s : QString) : Prop :=
  match s with [] => True | c :: _ => p c = false end.

(** A continuation that fails on every state whose next character is in
    [a]: after a greedy run of [a] it leaves no shorter run to fall back
    on. *)
Definition rejects (a : atom) (k : cont) : Prop :=
  forall n c t cs, a c = true -> k (MState n (c :: t) cs) = None.

(** What [Type::fromQt] reads off a match: the description, if group 1
    took part, and the filter list from group 2 or else group 3. *)
Definition matchParts (m : QRegularExpressionMatch)
    : option QString * QString :=
  (if hasCaptured m DescriptionIndex
   then Some (capturedView m DescriptionIndex) else None,
   capturedView m
     (if hasCaptured m FilterListFromParensIndex
      then FilterListFromParensIndex else PlainFilterListIndex)).

(** The entries of the array an accept rule holds under its MIME key. *)
Definition Accept_entries (a : Accept) : list val :=
  match get "application/octet-stream" (accept_storage a) with
  | Some (VArray l) => l
  | _ => []
  end.

(** The elements of the array [qtFilterListToTypes] returns, none for
    [nullopt]. *)
Definition typesOf (o : option val) : list val :=
  match o with
  | Some (VArray l) => l
  | _ => []
  end.

(** * Properties *)

(** ** Runs of characters *)

Section Runs.
Variable p : QChar -> bool.

Lemma takeWhile_dropWhile (s : QString) :
  takeWhile p s ++ dropWhile p s = s.
Proof.
  induction s as [|c t IH]; simpl; [reflexivity|].
  destruct (p c); simpl; [now rewrite IH | reflexivity].
Qed.

Lemma takeWhile_all (s : QString) : forallb p (takeWhile p s) = true.
Proof.
  induction s as [|c t IH]; simpl; [reflexivity|].
  destruct (p c) eqn:E; simpl; [now rewrite E | reflexivity].
Qed.

Lemma dropWhile_stops (s : QString) : stops p (dropWhile p s).
Proof.
  induction s as [|c t IH]; simpl; [exact I|].
  destruct (p c) eqn:E; simpl; assumption.
Qed.

Lemma takeWhile_app (x y : QString) :
  forallb p x = true -> stops p y -> takeWhile p (x ++ y) = x.
Proof.
  intros Hx Hy. induction x as [|c t IH]; simpl in *.
  - destruct y as [|d y]; simpl in *; [reflexivity | now rewrite Hy].
  - apply andb_prop in Hx as [Hc Ht]. rewrite Hc. now rewrite IH.
Qed.

Lemma dropWhile_app (x y : QString) :
  forallb p x = true -> stops p y -> dropWhile p (x ++ y) = y.
Proof.
  intros Hx Hy. induction x as [|c t IH]; simpl in *.
  - destruct y as [|d y]; simpl in *; [reflexivity | now rewrite Hy].
  - apply andb_prop in Hx as [Hc Ht]. rewrite Hc. now apply IH.
Qed.

Lemma takeWhile_id (s : QString) : forallb p s = true -> takeWhile p s = s.
Proof.
  intros H. rewrite <- (app_nil_r s) at 1.
  apply takeWhile_app; [assumption | exact I].
Qed.

Lemma dropWhile_nil (s : QString) : forallb p s = true -> dropWhile p s = [].
Proof.
  intros H. rewrite <- (app_nil_r s).
  apply dropWhile_app; [assumption | exact I].
Qed.

Lemma length_dropWhile (s : QString) :
  List.length (takeWhile p s) + List.length (dropWhile p s) = List.length s.
Proof. now rewrite <- length_app, takeWhile_dropWhile. Qed.

Lemma firstn_takeWhile (s : QString) :
  firstn (List.length (takeWhile p s)) s = takeWhile p s.
Proof.
  rewrite <- (takeWhile_dropWhile s) at 2.
  rewrite firstn_app, Nat.sub_diag, firstn_all. simpl.
  apply app_nil_r.
Qed.

Lemma skipn_takeWhile (s : QString) :
  skipn (List.length (takeWhile p s)) s = dropWhile p s.
Proof.
  rewrite <- (takeWhile_dropWhile s) at 2.
  rewrite skipn_app, Nat.sub_diag, skipn_all. reflexivity.
Qed.
End Runs.

(** ** The matcher on runs *)

Lemma orElse_None_r (x : option mstate) : orElse x None = x.
Proof. now destruct x. Qed.

Lemma star_commit (a : atom) (k : cont) :
  rejects a k ->
  forall s n cs,
    star a k n s cs =
    k (MState (n + List.length (takeWhile a s)) (dropWhile a s) cs).
Proof.
  intros Hk. induction s as [|c t IH]; intros n cs; simpl.
  - now rewrite Nat.add_0_r.
  - destruct (a c) eqn:E; simpl.
    + rewrite (Hk _ _ _ _ E), orElse_None_r, IH.
      now rewrite Nat.add_succ_r.
    + now rewrite Nat.add_0_r.
Qed.

Lemma star_greedy (a : atom) (k : cont) (s : QString) :
  forall n cs st,
    k (MState (n + List.length (takeWhile a s)) (dropWhile a s) cs) = Some st ->
    star a k n s cs = Some st.
Proof.
  induction s as [|c t IH]; intros n cs st; simpl.
  - now rewrite Nat.add_0_r.
  - destruct (a c) eqn:E; simpl.
    + rewrite Nat.add_succ_r. intros H. now rewrite (IH (S n) cs st H).
    + now rewrite Nat.add_0_r.
Qed.

Lemma rejects_Eos (a : atom) (k : cont) : rejects a (run Eos k).
Proof. intros n c t cs _. reflexivity. Qed.

Lemma rejects_One (a b : atom) (k : cont) :
  (forall c, a c = true -> b c = false) -> rejects a (run (One b) k).
Proof. intros H n c t cs Hc. simpl. now rewrite (H c Hc). Qed.

Lemma rejects_setCap (a : atom) (k : cont) (g from : nat) :
  rejects a k -> rejects a (fun st => k (setCap g from st)).
Proof. intros H n c t cs Hc. unfold setCap. simpl. now apply H. Qed.

(** ** The equations of the matcher *)

Section RunEquations.
Variables (k : cont) (n : nat) (s : QString) (cs : list (nat * (nat * nat))).

Lemma run_One (a : atom) :
  run (One a) k (MState n s cs) =
  match s with
  | c :: t => if a c then k (MState (S n) t cs) else None
  | [] => None
  end.
Proof. reflexivity. Qed.

Lemma run_Star (a : atom) :
  run (Star a) k (MState n s cs) = star a k n s cs.
Proof. reflexivity. Qed.

Lemma run_Plus (a : atom) :
  run (Plus a) k (MState n s cs) =
  match s with
  | c :: t => if a c then star a k (S n) t cs else None
  | [] => None
  end.
Proof. reflexivity. Qed.

Lemma run_Opt (a : atom) :
  run (Opt a) k (MState n s cs) =
  match s with
  | c :: t =>
      if a c then orElse (k (MState (S n) t cs)) (k (MState n s cs))
      else k (MState n s cs)
  | [] => k (MState n s cs)
  end.
Proof. reflexivity. Qed.

Lemma run_Seq (r1 r2 : regex) :
  run (r1 ;; r2) k (MState n s cs) = run r1 (run r2 k) (MState n s cs).
Proof. reflexivity. Qed.

Lemma run_Alt (r1 r2 : regex) :
  run (r1 ||| r2) k (MState n s cs) =
  orElse (run r1 k (MState n s cs)) (run r2 k (MState n s cs)).
Proof. reflexivity. Qed.

Lemma run_Group (g : nat) (r : regex) :
  run (Group g r) k (MState n s cs) =
  run r (fun st => k (setCap g n st)) (MState n s cs).
Proof. reflexivity. Qed.

Lemma run_Eos :
  run Eos k (MState n s cs) =
  match s with [] => k (MState n [] cs) | _ :: _ => None end.
Proof. destruct s; reflexivity. Qed.

(** A greedy run followed by something that cannot start inside it is
    deterministic: the whole run is taken. *)
Lemma run_Star_commit (a : atom) :
  rejects a k ->
  run (Star a) k (MState n s cs) =
  k (MState (n + List.length (takeWhile a s)) (dropWhile a s) cs).
Proof. intros H. rewrite run_Star. now apply star_commit. Qed.

Lemma run_Plus_commit (a : atom) :
  rejects a k ->
  run (Plus a) k (MState n s cs) =
  if nonEmpty (takeWhile a s)
  then k (MState (n + List.length (takeWhile a s)) (dropWhile a s) cs)
  else None.
Proof.
  intros H. rewrite run_Plus. destruct s as [|c t]; simpl; [reflexivity|].
  destruct (a c); simpl; [|reflexivity].
  rewrite (star_commit H). now rewrite Nat.add_succ_r.
Qed.
End RunEquations.

Lemma run_Plus_greedy (a : atom) (k : cont) (n : nat) (s : QString)
    (cs : list (nat * (nat * nat))) (st : mstate) :
  nonEmpty (takeWhile a s) = true ->
  k (MState (n + List.length (takeWhile a s)) (dropWhile a s) cs) = Some st ->
  run (Plus a) k (MState n s cs) = Some st.
Proof.
  rewrite run_Plus. destruct s as [|c t]; simpl; [discriminate|].
  destruct (a c); simpl; [|discriminate].
  intros _ H. apply star_greedy. now rewrite Nat.add_succ_r in H.
Qed.

Lemma run_Plus_fail (a : atom) (k : cont) (n : nat) (s : QString)
    (cs : list (nat * (nat * nat))) :
  nonEmpty (takeWhile a s) = false ->
  run (Plus a) k (MState n s cs) = None.
Proof.
  rewrite run_Plus. destruct s as [|c t]; simpl; [reflexivity|].
  destruct (a c); simpl; [discriminate | reflexivity].
Qed.

(** ** Anchored patterns *)

Lemma search_anchored_later (r : regex) (s : QString) (n : nat) :
  search (anchoredPattern r) (S n) s = None.
Proof.
  revert n. induction s as [|c t IH]; intros n; simpl; [reflexivity|].
  apply IH.
Qed.

Lemma match_anchored (r : regex) (s : QString) :
  regex_match (anchoredPattern r) s 0 =
  if validUtf16 s then
    match run r (run Eos Some) (MState 0 s []) with
    | Some st => Some (Match s 0 (pos st) (caps st))
    | None => None
    end
  else None.
Proof.
  unfold regex_match. simpl Nat.leb. cbv iota. simpl skipn.
  destruct (validUtf16 s); [|reflexivity].
  destruct s as [|c t]; simpl.
  - destruct (run r _ _); reflexivity.
  - destruct (run r _ _); [reflexivity|].
    now rewrite search_anchored_later.
Qed.

(** ** Character classes *)

Lemma isStar_eqb (c : QChar) : isStar c = (c =? star_c)%N.
Proof. unfold isStar, oneOf. simpl. apply orb_false_r. Qed.

Lemma lit_star (c : QChar) : lit "*" c = isStar c.
Proof. now rewrite isStar_eqb. Qed.

Lemma nonStar_negb (c : QChar) : nonStar c = negb (isStar c).
Proof. reflexivity. Qed.

Lemma isStar_true (c : QChar) : isStar c = true <-> c = star_c.
Proof. rewrite isStar_eqb. apply N.eqb_eq. Qed.

Lemma nonStar_true (c : QChar) : nonStar c = true <-> c <> star_c.
Proof.
  rewrite nonStar_negb, negb_true_iff, isStar_eqb. apply N.eqb_neq.
Qed.

Lemma notLParen_negb (c : QChar) : notLParen c = negb (lit "(" c).
Proof. unfold notLParen, noneOf, oneOf. simpl. now rewrite orb_false_r. Qed.

Lemma nonParen_negb (c : QChar) :
  nonParen c = negb (lit "(" c || lit ")" c).
Proof. unfold nonParen, noneOf, oneOf. simpl. now rewrite orb_false_r. Qed.

Lemma forallb_isStar_repeat (n : nat) : forallb isStar (repeat star_c n) = true.
Proof. induction n; simpl; [reflexivity | assumption]. Qed.

Lemma forallb_isStar_inv (s : QString) :
  forallb isStar s = true -> s = repeat star_c (List.length s).
Proof.
  induction s as [|c t IH]; simpl; [reflexivity|].
  intros H. apply andb_prop in H as [Hc Ht].
  apply isStar_true in Hc. subst c. now rewrite <- IH.
Qed.

Lemma dropWhile_forallb (p : QChar -> bool) (s : QString) :
  match dropWhile p s with [] => true | _ :: _ => false end = forallb p s.
Proof.
  induction s as [|c t IH]; simpl; [reflexivity|].
  destruct (p c); simpl; [assumption | reflexivity].
Qed.

(** ** Extension::fromQt *)

Lemma validUtf16_app (x y : QString) :
  validUtf16 (x ++ y) = validUtf16 x && validUtf16 y.
Proof. apply forallb_app. Qed.

Lemma validUtf16_sub (p : QChar -> bool) (x : QString) :
  (forall c, p c = true -> isSurrogate c = false) ->
  forallb p x = true -> validUtf16 x = true.
Proof.
  intros Hp Hx. apply forallb_forall. intros c Hc.
  rewrite forallb_forall in Hx. now rewrite (Hp c (Hx c Hc)).
Qed.

Lemma validUtf16_In (s x : QString) :
  (forall c, In c x -> In c s) -> validUtf16 s = true -> validUtf16 x = true.
Proof.
  intros Hin Hs. apply forallb_forall. intros c Hc.
  unfold validUtf16 in Hs. rewrite forallb_forall in Hs. auto.
Qed.

Lemma validUtf16_mid (s : QString) (a len : nat) :
  validUtf16 s = true -> validUtf16 (mid s a len) = true.
Proof.
  apply validUtf16_In. intros c Hc. unfold mid in Hc.
  rewrite <- (firstn_skipn a s). apply in_or_app. right.
  rewrite <- (firstn_skipn len (skipn a s)). apply in_or_app. now left.
Qed.

Lemma isStar_not_surrogate (c : QChar) :
  isStar c = true -> isSurrogate c = false.
Proof. intros H. apply isStar_true in H. now subst c. Qed.

Lemma pureWildcard_valid (s : QString) :
  pureWildcard s = true -> validUtf16 s = true.
Proof.
  unfold pureWildcard. intros H. apply andb_prop in H as [_ H].
  rewrite <- (takeWhile_dropWhile isStar s), validUtf16_app.
  rewrite (validUtf16_sub isStar _ isStar_not_surrogate (takeWhile_all _ s)).
  destruct (dropWhile isStar s) as [|d z]; [reflexivity|].
  apply andb_prop in H as [H Hz]. apply andb_prop in H as [Hd _].
  apply N.eqb_eq in Hd. subst d.
  change (validUtf16 (dot_c :: z)) with (validUtf16 z).
  now rewrite (validUtf16_sub isStar _ isStar_not_surrogate Hz).
Qed.

(** The accept-all pattern matches exactly the pure-wildcard tokens. *)
Lemma acceptAll_match (s : QString) :
  isSome (regex_match qtAcceptAllRegex s 0) = pureWildcard s.
Proof.
  unfold qtAcceptAllRegex. rewrite match_anchored.
  destruct (validUtf16 s) eqn:Ev.
  2:{ symmetry. apply not_true_is_false. intros H.
      apply pureWildcard_valid in H. congruence. }
  unfold pureWildcard. fold isStar.
  assert (Hdot : rejects isStar
                   (run (One (lit ".")) (run (Plus isStar) (run Eos Some)))).
  { apply rejects_One. intros d Hd. apply isStar_true in Hd. now subst d. }
  rewrite run_Alt, !run_Seq.
  rewrite (run_Plus_commit _ _ _ (rejects_Eos isStar Some)).
  rewrite (run_Plus_commit _ _ _ Hdot).
  destruct (nonEmpty (takeWhile isStar s)); [|reflexivity].
  rewrite run_Eos, run_One. cbn [andb].
  destruct (dropWhile isStar s) as [|d z]; [reflexivity|].
  cbn [orElse]. unfold lit at 1. fold dot_c.
  destruct (d =? dot_c)%N; [|reflexivity].
  rewrite (run_Plus_commit _ _ _ (rejects_Eos isStar Some)), run_Eos.
  cbn [andb]. rewrite <- (dropWhile_forallb isStar z).
  destruct z as [|c' z']; [reflexivity|].
  cbn [takeWhile dropWhile nonEmpty].
  destruct (isStar c'); [|reflexivity].
  cbn [nonEmpty andb]. now destruct (dropWhile isStar z').
Qed.

Lemma mid_suffix (pre s : QString) :
  mid (pre ++ s) (List.length pre)
      (List.length pre + List.length s - List.length pre) = s.
Proof.
  unfold mid. rewrite skipn_app, Nat.sub_diag, skipn_all. simpl.
  replace (List.length pre + List.length s - List.length pre)
    with (List.length s) by lia.
  apply firstn_all.
Qed.

(** The extension group of the file-name pattern, from any offset. *)
Lemma run_extension_group (n : nat) (s : QString)
    (cs : list (nat * (nat * nat))) :
  run (Group 2 (One (lit ".") ;; Plus nonStar)) (run Eos Some) (MState n s cs) =
  match s with
  | d :: x =>
      if (d =? dot_c)%N && nonEmpty x && forallb nonStar x
      then Some (MState (n + List.length s) [] ((2, (n, n + List.length s)) :: cs))
      else None
  | [] => None
  end.
Proof.
  rewrite run_Group, run_Seq, run_One.
  destruct s as [|d x]; [reflexivity|].
  unfold lit. fold dot_c. destruct (d =? dot_c)%N; [|reflexivity].
  rewrite run_Plus_commit.
  2:{ apply (rejects_setCap (k := run Eos Some)), rejects_Eos. }
  cbn [andb]. rewrite <- (dropWhile_forallb nonStar x).
  destruct (nonEmpty (takeWhile nonStar x)) eqn:En.
  - assert (Hx : nonEmpty x = true).
    { destruct x; [discriminate | reflexivity]. }
    rewrite Hx. cbn [andb]. unfold setCap. cbn [pos rest caps].
    rewrite run_Eos.
    destruct (dropWhile nonStar x) eqn:Ed; [|reflexivity].
    pose proof (length_dropWhile nonStar x) as Hl. rewrite Ed in Hl.
    simpl List.length in *.
    replace (S n + List.length (takeWhile nonStar x))
      with (n + S (List.length x)) by lia.
    reflexivity.
  - destruct x as [|c x']; [reflexivity|].
    simpl in En |- *. destruct (nonStar c); [discriminate | reflexivity].
Qed.

(** The file-name pattern matches exactly the tokens that have an
    extension, and its second group is that extension. *)
Lemma filename_match (s : QString) :
  option_map (fun m => capturedView m 2)
    (regex_match qtFilenameMatcherRegex s 0) =
  if validUtf16 s then extensionOf s else None.
Proof.
  unfold qtFilenameMatcherRegex. rewrite match_anchored.
  destruct (validUtf16 s); [|reflexivity].
  rewrite run_Seq, run_Group, run_Opt.
  unfold extensionOf, dropLeadingStar.
  assert (Hview : forall (pre t : QString) cs',
    capturedView
      (Match (pre ++ t) 0 (List.length pre + List.length t)
         ((2, (List.length pre, List.length pre + List.length t)) :: cs')) 2
    = t).
  { intros. unfold capturedView. simpl. apply mid_suffix. }
  destruct s as [|c t].
  - reflexivity.
  - rewrite lit_star. unfold setCap. cbn [pos rest caps].
    destruct (isStar c) eqn:Ec.
    + fold nonStar. rewrite !run_extension_group.
      apply isStar_true in Ec. subst c.
      change ((star_c =? dot_c)%N) with false. cbn [andb orElse].
      rewrite orElse_None_r.
      destruct t as [|d x]; [reflexivity|].
      destruct ((d =? dot_c)%N && nonEmpty x && forallb nonStar x);
        [|reflexivity].
      cbn [option_map pos caps]. f_equal.
      apply (Hview [star_c] (d :: x)).
    + fold nonStar. rewrite run_extension_group.
      destruct ((c =? dot_c)%N && nonEmpty t && forallb nonStar t);
        [|reflexivity].
      cbn [option_map pos caps]. f_equal.
      apply (Hview [] (c :: t)).
Qed.

(** [Extension::fromQt] against the specification's two rules. *)
Lemma Extension_fromQt_spec (t : QString) :
  Extension_fromQt t =
  if pureWildcard t then None
  else if validUtf16 t then option_map Extension_new (extensionOf t)
       else None.
Proof.
  unfold Extension_fromQt.
  pose proof (filename_match t) as Hf.
  rewrite <- acceptAll_match.
  destruct (regex_match qtAcceptAllRegex t 0); [reflexivity|].
  cbn [isSome].
  destruct (regex_match qtFilenameMatcherRegex t 0) as [m|];
    cbn [option_map] in Hf; destruct (validUtf16 t);
    try discriminate Hf; try rewrite <- Hf; reflexivity.
Qed.

(** ** Type::Accept::fromQt *)

Lemma nonSpace_space (c : QChar) : nonSpace c = negb (space c).
Proof. reflexivity. Qed.

Lemma nonEmpty_takeWhile_hd (p : QChar -> bool) (c : QChar) (t : QString) :
  nonEmpty (takeWhile p (c :: t)) = p c.
Proof. simpl. now destruct (p c). Qed.

(** One match of the token pattern at a given offset: the longest run of
    non-space characters there, then the white space after it. *)
Lemma run_internal (n : nat) (s : QString) :
  run internalRegex Some (MState n s []) =
  let w := takeWhile nonSpace s in
  let r := dropWhile nonSpace s in
  if nonEmpty w
  then Some (MState (n + List.length w + List.length (takeWhile space r))
               (dropWhile space r) [(1, (n, n + List.length w))])
  else None.
Proof.
  unfold internalRegex. rewrite run_Seq, run_Group. cbv zeta.
  destruct (nonEmpty (takeWhile nonSpace s)) eqn:E.
  - apply run_Plus_greedy; [assumption|].
    unfold setCap. cbn [pos rest caps]. rewrite run_Star.
    now apply star_greedy.
  - now apply run_Plus_fail.
Qed.

(** The search skips the white space in front of the next token. *)
Lemma search_internal (s : QString) :
  forall n,
    search internalRegex n s =
    let sp := takeWhile space s in
    let s1 := dropWhile space s in
    let w := takeWhile nonSpace s1 in
    let r := dropWhile nonSpace s1 in
    if nonEmpty s1
    then Some (n + List.length sp,
               MState (n + List.length sp + List.length w
                       + List.length (takeWhile space r))
                 (dropWhile space r)
                 [(1, (n + List.length sp,
                       n + List.length sp + List.length w))])
    else None.
Proof.
  induction s as [|c t IH]; intros n.
  - reflexivity.
  - cbn [search]. rewrite run_internal. cbv zeta.
    rewrite nonEmpty_takeWhile_hd, nonSpace_space.
    destruct (space c) eqn:Ec; cbn [negb].
    + assert (E1 : takeWhile space (c :: t) = c :: takeWhile space t)
        by (simpl; now rewrite Ec).
      assert (E2 : dropWhile space (c :: t) = dropWhile space t)
        by (simpl; now rewrite Ec).
      rewrite E1, E2, IH. cbv zeta. cbn [List.length].
      now rewrite !Nat.add_succ_r.
    + assert (E1 : takeWhile space (c :: t) = [])
        by (simpl; now rewrite Ec).
      assert (E2 : dropWhile space (c :: t) = c :: t)
        by (simpl; now rewrite Ec).
      rewrite E1, E2. cbn [nonEmpty List.length].
      now rewrite Nat.add_0_r.
Qed.

Lemma split_ws_word (w r cur : QString) :
  forallb nonSpace w = true -> split_ws cur (w ++ r) = split_ws (cur ++ w) r.
Proof.
  revert cur. induction w as [|c w IH]; intros cur H; simpl in *.
  - now rewrite app_nil_r.
  - apply andb_prop in H as [Hc Hw].
    rewrite nonSpace_space, negb_true_iff in Hc. rewrite Hc.
    rewrite IH by assumption. now rewrite <- app_assoc.
Qed.

Lemma split_ws_spaces (sp r : QString) :
  forallb space sp = true -> split_ws [] (sp ++ r) = split_ws [] r.
Proof.
  induction sp as [|c sp IH]; intros H; simpl in *; [reflexivity|].
  apply andb_prop in H as [Hc Hsp]. rewrite Hc. simpl. now apply IH.
Qed.

Lemma tokens_dropWhile (s : QString) : tokens (dropWhile space s) = tokens s.
Proof.
  unfold tokens. rewrite <- (takeWhile_dropWhile space s) at 2.
  symmetry. apply split_ws_spaces, takeWhile_all.
Qed.

(** The tokens of a text: its first run of non-space characters, then the
    tokens of what follows. *)
Lemma tokens_next (s : QString) :
  tokens s =
  let s1 := dropWhile space s in
  if nonEmpty s1
  then takeWhile nonSpace s1 :: tokens (dropWhile space (dropWhile nonSpace s1))
  else [].
Proof.
  cbv zeta. rewrite <- (tokens_dropWhile s).
  pose proof (dropWhile_stops space s) as Hstop.
  destruct (dropWhile space s) as [|c t] eqn:Es1; [reflexivity|].
  cbn [nonEmpty]. rewrite tokens_dropWhile.
  set (s1 := c :: t).
  unfold tokens at 1.
  rewrite <- (takeWhile_dropWhile nonSpace s1).
  rewrite split_ws_word by apply takeWhile_all.
  rewrite (takeWhile_dropWhile nonSpace s1). cbn [app].
  assert (Hw : takeWhile nonSpace s1 <> []).
  { unfold s1. simpl. rewrite nonSpace_space. simpl in Hstop.
    rewrite Hstop. discriminate. }
  pose proof (dropWhile_stops nonSpace s1) as Hr.
  destruct (takeWhile nonSpace s1) as [|a w]; [contradiction|].
  destruct (dropWhile nonSpace s1) as [|d r] eqn:Er.
  - reflexivity.
  - simpl in Hr. rewrite nonSpace_space, negb_false_iff in Hr.
    unfold tokens. cbn [split_ws]. rewrite Hr. reflexivity.
Qed.

Lemma skipn_add (a b : nat) (s : QString) :
  skipn (a + b) s = skipn a (skipn b s).
Proof. now rewrite skipn_skipn. Qed.

Lemma validUtf16_skipn (s : QString) (n : nat) :
  validUtf16 s = true -> validUtf16 (skipn n s) = true.
Proof.
  apply validUtf16_In. intros c Hc.
  rewrite <- (firstn_skipn n s). apply in_or_app. now right.
Qed.

Lemma match_internal (s : QString) (off : nat) :
  off <= List.length s ->
  validUtf16 s = true ->
  regex_match internalRegex s off =
  let suf := skipn off s in
  let sp := takeWhile space suf in
  let s1 := dropWhile space suf in
  let w := takeWhile nonSpace s1 in
  let r := dropWhile nonSpace s1 in
  if nonEmpty s1
  then Some (Match s (off + List.length sp)
               (off + List.length sp + List.length w
                + List.length (takeWhile space r))
               [(1, (off + List.length sp,
                     off + List.length sp + List.length w))])
  else None.
Proof.
  intros Hoff Hv. unfold regex_match.
  apply Nat.leb_le in Hoff.
  rewrite Hoff, (@validUtf16_skipn s off Hv), search_internal. cbv zeta.
  now destruct (nonEmpty (dropWhile space (skipn off s))).
Qed.

(** The loop of [Type::Accept::fromQt], started at any offset with fuel
    for what is left of the text, returns: with the extensions of the
    remaining tokens added when they all parse, with [nullopt] when one of
    them does not. *)
Lemma Accept_fromQt_loop_spec (s : QString) :
  validUtf16 s = true ->
  forall fuel off mimeType,
    off <= List.length s ->
    List.length s - off < fuel ->
    Accept_fromQt_loop fuel s (regex_match internalRegex s off) mimeType =
    match parseAll (tokens (skipn off s)) with
    | Some es => LoopExit (fold_left MimeType_addExtension es mimeType)
    | None => ReturnNullopt
    end.
Proof.
  intros Hv.
  induction fuel as [|fuel IH]; intros off mimeType Hoff Hfuel; [lia|].
  cbn [Accept_fromQt_loop].
  rewrite (@match_internal s off Hoff Hv), (tokens_next (skipn off s)). cbv zeta.
  pose proof (length_skipn off s) as Hlen.
  set (suf := skipn off s) in *.
  pose proof (length_dropWhile space suf) as Hl1.
  pose proof (dropWhile_stops space suf) as Hstop.
  pose proof (skipn_takeWhile space suf) as Hs1.
  set (sp := takeWhile space suf) in *.
  set (s1 := dropWhile space suf) in *.
  pose proof (length_dropWhile nonSpace s1) as Hl2.
  pose proof (skipn_takeWhile nonSpace s1) as Hs2.
  pose proof (firstn_takeWhile nonSpace s1) as Hf2.
  assert (Hw : nonEmpty s1 = true -> 0 < List.length (takeWhile nonSpace s1)).
  { destruct s1 as [|c t]; [discriminate|]. intros _. simpl in Hstop |- *.
    rewrite nonSpace_space, Hstop. simpl. lia. }
  set (w := takeWhile nonSpace s1) in *.
  set (r := dropWhile nonSpace s1) in *.
  pose proof (length_dropWhile space r) as Hl3.
  pose proof (skipn_takeWhile space r) as Hs3.
  set (sp2 := takeWhile space r) in *.
  destruct (nonEmpty s1) eqn:Ene.
  - specialize (Hw eq_refl).
    assert (Hview :
      capturedView
        (Match s (off + List.length sp)
           (off + List.length sp + List.length w + List.length sp2)
           [(1, (off + List.length sp, off + List.length sp + List.length w))])
        1 = w).
    { unfold capturedView. cbn [groupOffsets lookupCap Nat.eqb captured subject].
      unfold mid.
      replace (off + List.length sp + List.length w - (off + List.length sp))
        with (List.length w) by lia.
      replace (off + List.length sp) with (List.length sp + off) by lia.
      rewrite skipn_add. fold suf. rewrite Hs1. exact Hf2. }
    rewrite Hview. cbn [parseAll].
    destruct (Extension_fromQt w) as [e|]; [|reflexivity].
    unfold capturedEnd. cbn [matchEnd].
    rewrite IH by lia.
    replace (off + List.length sp + List.length w + List.length sp2)
      with (List.length sp2 + (List.length w + (List.length sp + off))) by lia.
    rewrite !skipn_add. fold suf. rewrite Hs1, Hs2, Hs3.
    now destruct (parseAll (tokens (dropWhile space r))).
  - reflexivity.
Qed.

Lemma fold_addExtension (es : list Extension) :
  forall acc,
    fold_left MimeType_addExtension es (MkMimeType acc) =
    MkMimeType (acc ++ map Extension_asVal es).
Proof.
  induction es as [|e es IH]; intros acc; simpl.
  - now rewrite app_nil_r.
  - unfold MimeType_addExtension at 2. cbn [mime_storage]. unfold push.
    rewrite IH, <- app_assoc. reflexivity.
Qed.

Lemma Accept_fromQt_run_spec (s : QString) :
  Accept_fromQt_run s =
  if validUtf16 s then
    match parseAll (tokens s) with
    | Some es => LoopExit (MkMimeType (map Extension_asVal es))
    | None => ReturnNullopt
    end
  else LoopExit MimeType_new.
Proof.
  unfold Accept_fromQt_run.
  destruct (validUtf16 s) eqn:Hv.
  - rewrite (@Accept_fromQt_loop_spec s Hv) by (simpl; lia).
    simpl skipn. destruct (parseAll (tokens s)) as [es|]; [|reflexivity].
    unfold MimeType_new. now rewrite fold_addExtension.
  - unfold regex_match. cbn [Nat.leb skipn]. rewrite Hv. reflexivity.
Qed.

(** [Type::Accept::fromQt] against the specification's rule. *)
Lemma Accept_fromQt_spec (s : QString) :
  Accept_fromQt s =
  if validUtf16 s then option_map acceptOf (parseAll (tokens s))
  else Some (acceptOf []).
Proof.
  unfold Accept_fromQt. rewrite Accept_fromQt_run_spec.
  destruct (validUtf16 s); [|reflexivity].
  now destruct (parseAll (tokens s)).
Qed.

(** ** Type::fromQt *)

Lemma nonParen_lits (c : QChar) :
  nonParen c = true -> lit "(" c = false /\ lit ")" c = false.
Proof.
  rewrite nonParen_negb, negb_true_iff. apply orb_false_elim.
Qed.

Lemma mid_app_pre (pre s : QString) (a len : nat) :
  mid (pre ++ s) (List.length pre + a) len = mid s a len.
Proof.
  unfold mid. rewrite skipn_app, skipn_all2 by lia.
  replace (List.length pre + a - List.length pre) with a by lia.
  reflexivity.
Qed.

Lemma typeSplit_eq (s : QString) :
  typeSplit s =
  match parenGroupAt s with
  | Some (g1, g2) => Some (Some g1, g2)
  | None =>
      match s with
      | [] => None
      | c :: t =>
          if nonParen c then Some (None, takeWhile nonParen s)
          else typeSplit t
      end
  end.
Proof. destruct s; reflexivity. Qed.

(** The first alternative of the pattern, tried at one offset: it
    succeeds exactly when the parenthesised shape is read from there, and
    then its groups 1 and 2 are the two parts of the shape. *)
Lemma run_type_parens (n : nat) (s : QString) (k : cont) :
  (forall st, k st = Some st) ->
  match parenGroupAt s with
  | Some (g1, g2) =>
      exists e r,
        run (Group 1 (Star (noneOf ["("%char])) ;; One (lit "(")
             ;; Group 2 (Plus (noneOf ["("%char; ")"%char])) ;; One (lit ")")
             ;; Star (noneOf [")"%char])) k (MState n s []) =
        Some (MState e r
                [(2, (S (n + List.length g1),
                      S (n + List.length g1) + List.length g2));
                 (1, (n, n + List.length g1))])
  | None =>
      run (Group 1 (Star (noneOf ["("%char])) ;; One (lit "(")
           ;; Group 2 (Plus (noneOf ["("%char; ")"%char])) ;; One (lit ")")
           ;; Star (noneOf [")"%char])) k (MState n s []) = None
  end.
Proof.
  intros Hk. fold notLParen nonParen notRParen.
  rewrite !run_Seq, run_Group, run_Star_commit.
  2:{ apply (rejects_setCap (k := run (One (lit "(")) _)), rejects_One.
      intros c Hc. rewrite notLParen_negb in Hc.
      now apply negb_true_iff in Hc. }
  unfold setCap. cbn [pos rest caps].
  unfold parenGroupAt.
  destruct (dropWhile notLParen s) as [|c t] eqn:Ed.
  { reflexivity. }
  assert (Hc : lit "(" c = true).
  { pose proof (dropWhile_stops notLParen s) as Hs. rewrite Ed in Hs.
    simpl in Hs. rewrite notLParen_negb in Hs.
    now apply negb_false_iff in Hs. }
  rewrite run_One, Hc, run_Group, run_Plus_commit.
  2:{ apply (rejects_setCap (k := run (One (lit ")")) _)), rejects_One.
      intros d Hd. now apply nonParen_lits in Hd. }
  unfold setCap. cbn [pos rest caps].
  destruct (takeWhile nonParen t) as [|a g2] eqn:Eg2.
  { reflexivity. }
  cbn [nonEmpty]. rewrite run_One.
  destruct (dropWhile nonParen t) as [|d t2] eqn:Et2.
  { reflexivity. }
  destruct (lit ")" d); [|reflexivity].
  rewrite run_Star, (star_greedy _ _ _ _ _ (Hk _)).
  rewrite Nat.add_succ_l. eauto.
Qed.

(** The second alternative, tried at one offset. *)
Lemma run_type_plain (n : nat) (s : QString) :
  run (Group 3 (Plus (noneOf ["("%char; ")"%char]))) Some (MState n s []) =
  if nonEmpty (takeWhile nonParen s)
  then Some (MState (n + List.length (takeWhile nonParen s))
               (dropWhile nonParen s)
               [(3, (n, n + List.length (takeWhile nonParen s)))])
  else None.
Proof.
  fold nonParen. rewrite run_Group.
  destruct (nonEmpty (takeWhile nonParen s)) eqn:E.
  - now apply run_Plus_greedy.
  - now apply run_Plus_fail.
Qed.

Lemma parenGroupAt_parts (s g1 g2 : QString) :
  parenGroupAt s = Some (g1, g2) ->
  firstn (List.length g1) s = g1 /\
  firstn (List.length g2) (skipn (S (List.length g1)) s) = g2.
Proof.
  unfold parenGroupAt. intros H.
  pose proof (skipn_takeWhile notLParen s) as Hs.
  destruct (dropWhile notLParen s) as [|c t]; [discriminate|].
  destruct (takeWhile nonParen t) as [|a x] eqn:Ex; [discriminate|].
  destruct (dropWhile nonParen t) as [|d t2]; [discriminate|].
  destruct (lit ")" d); [|discriminate].
  injection H as <- <-. split.
  - apply firstn_takeWhile.
  - change (S (List.length (takeWhile notLParen s)))
      with (1 + List.length (takeWhile notLParen s)).
    rewrite skipn_add, Hs. simpl skipn.
    rewrite <- Ex. apply firstn_takeWhile.
Qed.

(** The search of the pattern of [Type::fromQt] over a text, against the
    specification's scan. *)
Lemma search_type (s : QString) :
  forall pre,
    option_map
      (fun '(p, st) => matchParts (Match (pre ++ s) p (pos st) (caps st)))
      (search typeRegex (List.length pre) s)
    = typeSplit s.
Proof.
  induction s as [|c t IH]; intros pre.
  - reflexivity.
  - rewrite typeSplit_eq. cbn [search]. unfold typeRegex at 1.
    rewrite run_Alt.
    pose proof (run_type_parens (List.length pre) (c :: t) Some
                  (fun st => eq_refl)) as Hp.
    destruct (parenGroupAt (c :: t)) as [[g1 g2]|] eqn:Epg.
    + destruct Hp as (e & r & ->). cbn [orElse option_map pos caps].
      apply parenGroupAt_parts in Epg as [H1 H2].
      unfold matchParts, hasCaptured, capturedView.
      cbn [groupOffsets lookupCap DescriptionIndex FilterListFromParensIndex
           Nat.eqb captured subject].
      rewrite <- (Nat.add_0_r (List.length pre)) at 1.
      rewrite mid_app_pre.
      rewrite <- Nat.add_succ_r, mid_app_pre.
      unfold mid. simpl skipn at 1.
      replace (List.length pre + List.length g1 - List.length pre)
        with (List.length g1) by lia.
      replace (List.length pre + S (List.length g1) + List.length g2
               - (List.length pre + S (List.length g1)))
        with (List.length g2) by lia.
      now rewrite H1, H2.
    + rewrite Hp. cbn [orElse]. rewrite run_type_plain.
      rewrite nonEmpty_takeWhile_hd.
      destruct (nonParen c) eqn:Ec.
      * cbn [option_map pos caps].
        unfold matchParts, hasCaptured, capturedView.
        cbn [groupOffsets lookupCap DescriptionIndex PlainFilterListIndex
             FilterListFromParensIndex Nat.eqb captured subject].
        rewrite <- (Nat.add_0_r (List.length pre)) at 1.
        rewrite mid_app_pre. unfold mid. simpl skipn.
        replace (List.length pre
                 + List.length (takeWhile nonParen (c :: t))
                 - List.length pre)
          with (List.length (takeWhile nonParen (c :: t))) by lia.
        now rewrite firstn_takeWhile.
      * specialize (IH (pre ++ [c])).
        rewrite length_app, <- app_assoc in IH. simpl in IH.
        rewrite Nat.add_1_r in IH. exact IH.
Qed.

(** [Type::fromQt] against the specification's scan. *)
Lemma Type_fromQt_spec (s : QString) :
  Type_fromQt s =
  if validUtf16 s then
    match typeSplit s with
    | Some (d, filterList) =>
        option_map
          (fun a => Type_new (match d with Some g => g | None => [] end) (Some a))
          (Accept_fromQt filterList)
    | None => None
    end
  else None.
Proof.
  rewrite <- (search_type s []).
  unfold Type_fromQt, regex_match. cbn [Nat.leb skipn List.length app].
  destruct (validUtf16 s); [|reflexivity].
  destruct (search typeRegex 0 s) as [[p st]|]; [|reflexivity].
  cbn [option_map]. unfold matchParts.
  destruct (hasCaptured _ DescriptionIndex);
    now destruct (Accept_fromQt _).
Qed.

(** ** The specification's predicates, decided *)

Lemma isStar_dot : isStar dot_c = false.
Proof. reflexivity. Qed.

Lemma nonEmpty_true (s : QString) : nonEmpty s = true <-> s <> [].
Proof. destruct s; simpl; split; congruence. Qed.

Lemma pureWildcard_iff (t : QString) : pureWildcard t = true <-> PureWildcard t.
Proof.
  unfold pureWildcard, PureWildcard. split.
  - intros H. apply andb_prop in H as [Hx Hy].
    pose proof (takeWhile_dropWhile isStar t) as Ht.
    pose proof (forallb_isStar_inv _ (takeWhile_all isStar t)) as Hr.
    destruct (takeWhile isStar t) as [|a x] eqn:Ex; [discriminate|].
    simpl List.length in Hr. exists (List.length x).
    destruct (dropWhile isStar t) as [|d z] eqn:Ez.
    + exists 0. left. rewrite <- Ht, app_nil_r. exact Hr.
    + apply andb_prop in Hy as [Hy Hz]. apply andb_prop in Hy as [Hd Hne].
      apply N.eqb_eq in Hd. subst d.
      apply forallb_isStar_inv in Hz.
      destruct z as [|b z]; [discriminate|]. simpl List.length in Hz.
      exists (List.length z). right. rewrite <- Ht, Hr, Hz at 1.
      reflexivity.
  - intros (n & m & [-> | ->]).
    + rewrite takeWhile_id, dropWhile_nil by apply forallb_isStar_repeat.
      reflexivity.
    + rewrite takeWhile_app, dropWhile_app;
        try apply (forallb_isStar_repeat (S n)); try exact isStar_dot.
      apply (forallb_isStar_repeat (S m)).
Qed.

Lemma forallb_nonStar (x : QString) :
  forallb nonStar x = true <-> Forall (fun c => c <> star_c) x.
Proof.
  rewrite forallb_forall, Forall_forall.
  split; intros H c Hc; apply nonStar_true; auto.
Qed.

Lemma extensionOf_iff (t e : QString) :
  extensionOf t = Some e <-> IsExtensionOf t e.
Proof.
  unfold extensionOf, IsExtensionOf. split.
  - intros H.
    destruct (dropLeadingStar t) as [|d x] eqn:Ed; [discriminate|].
    destruct ((d =? dot_c)%N && nonEmpty x && forallb nonStar x) eqn:Eb;
      [|discriminate].
    injection H as <-.
    apply andb_prop in Eb as [Eb Hx]. apply andb_prop in Eb as [Hd Hne].
    apply N.eqb_eq in Hd. subst d. split.
    + unfold dropLeadingStar in Ed. destruct t as [|c t']; [discriminate|].
      destruct (isStar c) eqn:Ec.
      * apply isStar_true in Ec. subst. now right.
      * now left.
    + exists x. split; [reflexivity|]. split.
      * now apply nonEmpty_true.
      * now apply forallb_nonStar.
  - intros [Ht (x & -> & Hne & Hx)].
    assert (Hd : dropLeadingStar t = dot_c :: x).
    { destruct Ht as [-> | ->]; reflexivity. }
    rewrite Hd. change ((dot_c =? dot_c)%N) with true.
    apply nonEmpty_true in Hne. apply forallb_nonStar in Hx.
    now rewrite Hne, Hx.
Qed.

Lemma extensionOf_valid (t e : QString) :
  extensionOf t = Some e -> ValidExtension e.
Proof.
  intros H. apply extensionOf_iff in H as [_ (x & -> & Hne & Hx)].
  split.
  - now exists x.
  - intros [Hin | Hin]; [discriminate|].
    rewrite Forall_forall in Hx. now apply (Hx _ Hin).
Qed.

Lemma Extension_fromQt_valid (t : QString) (e : Extension) :
  Extension_fromQt t = Some e -> ValidExtension (ext_storage e).
Proof.
  rewrite Extension_fromQt_spec.
  destruct (pureWildcard t); [discriminate|].
  destruct (validUtf16 t); [|discriminate].
  destruct (extensionOf t) as [x|] eqn:Ex; [|discriminate].
  intros H. injection H as <-. now apply extensionOf_valid with t.
Qed.

Lemma notLParen_lparen : notLParen lparen_c = false.
Proof. reflexivity. Qed.

Lemma nonParen_rparen : nonParen rparen_c = false.
Proof. reflexivity. Qed.

(** A spec that begins with the parenthesised shape is split there. *)
Lemma typeSplit_parens (g1 g2 tl : QString) :
  forallb notLParen g1 = true ->
  g2 <> [] ->
  forallb nonParen g2 = true ->
  typeSplit (g1 ++ lparen_c :: g2 ++ rparen_c :: tl) = Some (Some g1, g2).
Proof.
  intros H1 Hne H2. rewrite typeSplit_eq. unfold parenGroupAt.
  rewrite takeWhile_app, dropWhile_app;
    try assumption; try exact notLParen_lparen.
  rewrite takeWhile_app, dropWhile_app;
    try assumption; try exact nonParen_rparen.
  destruct g2 as [|a g2]; [contradiction|]. reflexivity.
Qed.

Lemma Type_fromQt_parens (g1 g2 tl : QString) :
  forallb notLParen g1 = true ->
  g2 <> [] ->
  forallb nonParen g2 = true ->
  Type_fromQt (g1 ++ lparen_c :: g2 ++ rparen_c :: tl) =
  if validUtf16 (g1 ++ lparen_c :: g2 ++ rparen_c :: tl)
  then option_map (fun a => Type_new g1 (Some a)) (Accept_fromQt g2)
  else None.
Proof.
  intros H1 Hne H2.
  now rewrite Type_fromQt_spec, typeSplit_parens.
Qed.


Lemma Type_new_storage (description : QString) (a : Accept) :
  type_storage (Type_new description (Some a)) =
  [("description"%string, VString (trimmed description));
   ("accept"%string, Accept_asVal a)].
Proof. reflexivity. Qed.

(** The parenthesised shape read from the start of a spec is a
    parenthesised shape somewhere in it. *)
Lemma parenGroupAt_hasParenGroup (s : QString) :
  hasParenGroup s = false -> parenGroupAt s = None.
Proof.
  induction s as [|c t IH]; [reflexivity|].
  cbn [hasParenGroup]. intros H. apply orb_false_elim in H as [Hc Ht].
  specialize (IH Ht). unfold parenGroupAt in *. cbn [dropWhile takeWhile].
  rewrite notLParen_negb.
  destruct (lit "(" c) eqn:Ec; cbn [negb].
  - cbn [andb] in Hc.
    destruct (takeWhile nonParen t) as [|a x]; [reflexivity|].
    destruct (dropWhile nonParen t) as [|d t2]; [reflexivity|].
    cbn [nonEmpty andb] in Hc. now rewrite Hc.
  - destruct (dropWhile notLParen t) as [|d t1]; [reflexivity|].
    destruct (takeWhile nonParen t1) as [|a x]; [reflexivity|].
    destruct (dropWhile nonParen t1) as [|d2 t2]; [reflexivity|].
    destruct (lit ")" d2); [discriminate | reflexivity].
Qed.

(** Without the parenthesised shape, the scan selects the first run of
    characters other than parentheses. *)
Lemma typeSplit_plain (s : QString) :
  hasParenGroup s = false ->
  typeSplit s =
  let run := takeWhile nonParen (dropWhile isParen s) in
  if nonEmpty run then Some (None, run) else None.
Proof.
  induction s as [|c t IH]; [reflexivity|].
  intros H. rewrite typeSplit_eq, (parenGroupAt_hasParenGroup _ H).
  cbn [hasParenGroup] in H. apply orb_false_elim in H as [_ Ht].
  cbv zeta. cbn [dropWhile].
  rewrite <- (negb_involutive (isParen c)).
  change (negb (isParen c)) with (nonParen c).
  destruct (nonParen c) eqn:Ec; cbn [negb].
  - rewrite nonEmpty_takeWhile_hd, Ec. reflexivity.
  - apply (IH Ht).
Qed.

(** A match of the pattern of [Type::fromQt] has captured either groups 1
    and 2 or group 3 alone. *)
Lemma search_type_caps (s : QString) :
  forall n p st,
    search typeRegex n s = Some (p, st) ->
    (exists a b, caps st = [(2, a); (1, b)]) \/ (exists a, caps st = [(3, a)]).
Proof.
  assert (Hrun : forall n s' st,
    run typeRegex Some (MState n s' []) = Some st ->
    (exists a b, caps st = [(2, a); (1, b)]) \/ (exists a, caps st = [(3, a)])).
  { intros n s' st. unfold typeRegex. rewrite run_Alt.
    pose proof (run_type_parens n s' Some (fun st => eq_refl)) as Hp.
    destruct (parenGroupAt s') as [[g1 g2]|].
    - destruct Hp as (e & r & ->). cbn [orElse].
      intros H. injection H as <-. left. simpl. eauto.
    - rewrite Hp. cbn [orElse]. rewrite run_type_plain.
      destruct (nonEmpty (takeWhile nonParen s')); [|discriminate].
      intros H. injection H as <-. right. simpl. eauto. }
  induction s as [|c t IH]; intros n p st; cbn [search].
  - destruct (run typeRegex Some (MState n [] [])) as [st'|] eqn:E;
      [|discriminate].
    intros H. injection H as <- <-. now apply Hrun in E.
  - destruct (run typeRegex Some (MState n (c :: t) [])) as [st'|] eqn:E.
    + intros H. injection H as <- <-. now apply Hrun in E.
    + apply IH.
Qed.

(** ** trimmed *)

Lemma forallb_rev (p : QChar -> bool) (s : QString) :
  forallb p (rev s) = forallb p s.
Proof.
  apply eq_true_iff_eq. rewrite !forallb_forall.
  split; intros H c Hc; apply H.
  - now apply -> in_rev.
  - now apply <- in_rev.
Qed.

Lemma stops_app_l (p : QChar -> bool) (x y : QString) :
  x <> [] -> stops p (x ++ y) -> stops p x.
Proof. destruct x; [contradiction | trivial]. Qed.

(** [trimmed] removes a run of white space from each end and leaves
    white space at neither. *)
Lemma trimmed_spec (s : QString) :
  exists l r,
    s = l ++ trimmed s ++ r /\
    forallb QChar_isSpace l = true /\
    forallb QChar_isSpace r = true /\
    stops QChar_isSpace (trimmed s) /\
    stops QChar_isSpace (rev (trimmed s)).
Proof.
  unfold trimmed.
  set (s1 := dropWhile QChar_isSpace s).
  set (u := dropWhile QChar_isSpace (rev s1)).
  exists (takeWhile QChar_isSpace s), (rev (takeWhile QChar_isSpace (rev s1))).
  assert (Hs1 : s1 = rev u ++ rev (takeWhile QChar_isSpace (rev s1))).
  { rewrite <- rev_app_distr. unfold u.
    now rewrite takeWhile_dropWhile, rev_involutive. }
  repeat split.
  - rewrite <- Hs1. symmetry. apply takeWhile_dropWhile.
  - apply takeWhile_all.
  - rewrite forallb_rev. apply takeWhile_all.
  - destruct (rev u) as [|c t] eqn:Eu; [exact I|].
    apply stops_app_l with (y := rev (takeWhile QChar_isSpace (rev s1))).
    + discriminate.
    + rewrite <- Hs1. apply dropWhile_stops.
  - rewrite rev_involutive. apply dropWhile_stops.
Qed.

(** ** The list of types *)

Lemma acceptedTypes_cons (fileFilter : QString) (filterList : QStringList) :
  acceptedTypes (fileFilter :: filterList) =
  match Type_fromQt fileFilter with
  | Some type => Type_asVal type :: acceptedTypes filterList
  | None => acceptedTypes filterList
  end.
Proof.
  unfold acceptedTypes. simpl. now destruct (Type_fromQt fileFilter).
Qed.

Lemma acceptedTypes_nil (filterList : QStringList) :
  match acceptedTypes filterList with [] => true | _ :: _ => false end =
  forallb (fun f => negb (isSome (Type_fromQt f))) filterList.
Proof.
  induction filterList as [|f fl IH]; [reflexivity|].
  rewrite acceptedTypes_cons. cbn [forallb].
  destruct (Type_fromQt f); [reflexivity | exact IH].
Qed.

Lemma fold_push_types (filterList : QStringList) :
  forall types,
    fold_left
      (fun types fileFilter =>
         match Type_fromQt fileFilter with
         | Some type => push types (Type_asVal type)
         | None => types
         end)
      filterList types
    = types ++ acceptedTypes filterList.
Proof.
  induction filterList as [|f fl IH]; intros types.
  - simpl. now rewrite app_nil_r.
  - cbn [fold_left]. rewrite IH, acceptedTypes_cons.
    destruct (Type_fromQt f); [|reflexivity].
    unfold push. now rewrite <- app_assoc.
Qed.

Lemma qtFilterListToTypes_spec (filterList : QStringList) :
  qtFilterListToTypes filterList =
  match acceptedTypes filterList with
  | [] => None
  | ts => Some (VArray ts)
  end.
Proof.
  unfold qtFilterListToTypes. rewrite fold_push_types. simpl.
  now destruct (acceptedTypes filterList).
Qed.

Lemma parseAll_cases (ts : list QString) :
  match parseAll ts with
  | Some es => map Some es = map Extension_fromQt ts
  | None => exists t, In t ts /\ Extension_fromQt t = None
  end.
Proof.
  induction ts as [|t ts IH]; cbn [parseAll]; [reflexivity|].
  destruct (Extension_fromQt t) as [e|] eqn:Et.
  - destruct (parseAll ts) as [es|].
    + cbn [map]. now rewrite Et, IH.
    + destruct IH as (t' & Hin & Hf). exists t'. split; [now right | exact Hf].
  - exists t. split; [now left | exact Et].
Qed.

Lemma parseAll_valid (ts : list QString) :
  forall es,
    parseAll ts = Some es ->
    Forall ValidExtension (map ext_storage es).
Proof.
  induction ts as [|t ts IH]; cbn [parseAll]; intros es H.
  - injection H as <-. constructor.
  - destruct (Extension_fromQt t) as [e|] eqn:Et; [|discriminate].
    destruct (parseAll ts) as [es'|]; [|discriminate].
    injection H as <-. cbn [map]. constructor.
    + now apply Extension_fromQt_valid with t.
    + now apply IH.
Qed.

Lemma Accept_fromQt_some (s : QString) (a : Accept) :
  Accept_fromQt s = Some a ->
  exists es,
    a = acceptOf es /\
    Forall ValidExtension (map ext_storage es) /\
    (validUtf16 s = true -> parseAll (tokens s) = Some es) /\
    (validUtf16 s = false -> es = []).
Proof.
  rewrite Accept_fromQt_spec. destruct (validUtf16 s).
  - destruct (parseAll (tokens s)) as [es|] eqn:Ep; [|discriminate].
    cbn [option_map]. intros H. injection H as <-. exists es.
    split; [reflexivity|]. split; [now apply parseAll_valid with (tokens s)|].
    split; [reflexivity | discriminate].
  - intros H. injection H as <-. exists [].
    split; [reflexivity|]. split; [constructor|].
    split; [discriminate | reflexivity].
Qed.

Lemma Type_fromQt_valid (s : QString) (t : Type_) :
  Type_fromQt s = Some t -> ValidType (Type_asVal t).
Proof.
  rewrite Type_fromQt_spec.
  destruct (validUtf16 s); [|discriminate].
  destruct (typeSplit s) as [[d fl]|]; [|discriminate].
  destruct (Accept_fromQt fl) as [a|] eqn:Ea; [|discriminate].
  cbn [option_map]. intros H. injection H as <-.
  destruct (Accept_fromQt_some _ Ea) as (es & -> & Hv & _).
  exists (trimmed (match d with Some g => g | None => [] end)),
         (map ext_storage es).
  split.
  - rewrite map_map. reflexivity.
  - exact Hv.
Qed.

Lemma acceptedTypes_valid (filterList : QStringList) :
  Forall ValidType (acceptedTypes filterList).
Proof.
  induction filterList as [|f fl IH]; [constructor|].
  rewrite acceptedTypes_cons.
  destruct (Type_fromQt f) as [t|] eqn:Et; [|assumption].
  constructor; [now apply Type_fromQt_valid with f | assumption].
Qed.




Lemma makeSaveFileOptions_spec (filterList : QStringList)
    (suggestedName : std_string) :
  makeSaveFileOptions filterList suggestedName =
  VObject
    (match suggestedName with
     | [] => []
     | _ :: _ => [("suggestedName"%string, VString suggestedName)]
     end ++
     match acceptedTypes filterList with
     | [] => []
     | ts => [("types"%string, VArray ts)]
     end).
Proof.
  unfold makeSaveFileOptions. rewrite qtFilterListToTypes_spec.
  destruct suggestedName; destruct (acceptedTypes filterList); reflexivity.
Qed.

Lemma makeOpenFileOptions_spec (filterList : QStringList)
    (acceptMultiple : bool) :
  makeOpenFileOptions filterList acceptMultiple =
  VObject
    match acceptedTypes filterList with
    | [] => [("multiple"%string, VBool acceptMultiple)]
    | ts => [("types"%string, VArray ts);
             ("excludeAcceptAllOption"%string, VBool true);
             ("multiple"%string, VBool acceptMultiple)]
    end.
Proof.
  unfold makeOpenFileOptions. rewrite qtFilterListToTypes_spec.
  destruct (acceptedTypes filterList); reflexivity.
Qed.

(** [hasParenGroup] decides the presence of the parenthesised shape. *)
Lemma hasParenGroup_iff (s : QString) :
  hasParenGroup s = true <->
  exists a x b,
    s = a ++ lparen_c :: x ++ rparen_c :: b /\
    x <> [] /\ forallb nonParen x = true.
Proof.
  split.
  - induction s as [|c t IH]; cbn [hasParenGroup]; [discriminate|].
    intros H. apply orb_prop in H as [H | H].
    + apply andb_prop in H as [H Hr]. apply andb_prop in H as [Hc Hx].
      apply N.eqb_eq in Hc. subst c.
      pose proof (takeWhile_dropWhile nonParen t) as Ht.
      destruct (dropWhile nonParen t) as [|d b]; [discriminate|].
      apply N.eqb_eq in Hr. subst d.
      exists [], (takeWhile nonParen t), b. split; [|split].
      * cbn [app]. rewrite <- Ht at 1. reflexivity.
      * now apply nonEmpty_true.
      * apply takeWhile_all.
    + destruct (IH H) as (a & x & b & -> & Hne & Hx).
      exists (c :: a), x, b. now repeat split.
  - intros (a & x & b & -> & Hne & Hx).
    induction a as [|c a IH]; cbn [app hasParenGroup].
    + rewrite takeWhile_app, dropWhile_app;
        try assumption; try exact nonParen_rparen.
      apply nonEmpty_true in Hne. now rewrite Hne.
    + rewrite IH. apply orb_true_r.
Qed.

Example tokens_example :
  tokens (qs "  *.png   *.jpg ") = [qs "*.png"; qs "*.jpg"].
Proof. reflexivity. Qed.

Example typeSplit_example :
  typeSplit (qs "Images (*.png *.jpg)") =
  Some (Some (qs "Images "), qs "*.png *.jpg").
Proof. reflexivity. Qed.

Lemma space_not_surrogate (c : QChar) :
  space c = true -> isSurrogate c = false.
Proof.
  unfold space, isSurrogate. intros H.
  destruct (N.leb_spec 55296 c) as [Hc|]; [|reflexivity].
  apply orb_prop in H as [H | H].
  - apply N.eqb_eq in H. lia.
  - apply andb_prop in H as [_ H]. apply N.leb_le in H. lia.
Qed.

Lemma validUtf16_blank (s : QString) :
  forallb space s = true -> validUtf16 s = true.
Proof. apply validUtf16_sub, space_not_surrogate. Qed.

Lemma validUtf16_capturedView (m : QRegularExpressionMatch) (n : nat) :
  validUtf16 (subject m) = true -> validUtf16 (capturedView m n) = true.
Proof.
  intros H. unfold capturedView.
  destruct (groupOffsets m n) as [[a b]|]; [|reflexivity].
  now apply validUtf16_mid.
Qed.

(** * The claims *)

(** ** C1 *)

(** C1.  [makeOpenFileOptions] on any filter list and any [acceptMultiple]:
    [types] holds exactly the file types of the specs that [Type::fromQt]
    accepts, in input order, a failing spec adding nothing (the two
    equations of [acceptedTypes]); when that list is empty the result has
    neither [types] nor [excludeAcceptAllOption], otherwise it has both,
    the latter [true]; [multiple] is always [acceptMultiple].  The list is
    empty exactly when no spec parses. *)
Theorem makeOpenFileOptions_types (filterList : QStringList)
    (acceptMultiple : bool) :
  let options := makeOpenFileOptions filterList acceptMultiple in
  acceptedTypes [] = [] /\
  (forall f fl,
     acceptedTypes (f :: fl) =
     match Type_fromQt f with
     | Some type => Type_asVal type :: acceptedTypes fl
     | None => acceptedTypes fl
     end) /\
  match acceptedTypes filterList with [] => true | _ :: _ => false end =
    forallb (fun f => negb (isSome (Type_fromQt f))) filterList /\
  options =
    VObject
      match acceptedTypes filterList with
      | [] => [("multiple"%string, VBool acceptMultiple)]
      | ts => [("types"%string, VArray ts);
               ("excludeAcceptAllOption"%string, VBool true);
               ("multiple"%string, VBool acceptMultiple)]
      end /\
  val_get "types" options =
    match acceptedTypes filterList with
    | [] => None
    | ts => Some (VArray ts)
    end /\
  val_get "excludeAcceptAllOption" options =
    match acceptedTypes filterList with
    | [] => None
    | _ :: _ => Some (VBool true)
    end /\
  val_get "multiple" options = Some (VBool acceptMultiple).
Proof.
  cbv zeta. rewrite makeOpenFileOptions_spec.
  split; [reflexivity|].
  split; [exact acceptedTypes_cons|].
  split; [apply acceptedTypes_nil|].
  destruct (acceptedTypes filterList); repeat split; reflexivity.
Qed.

(** ** C2 *)

(** C2, as stated, fails: a text holding a surrogate without its partner
    is one token, which [Extension::fromQt] rejects, yet
    [Type::Accept::fromQt] does not fail on it: the first match is
    invalid, the loop is not entered and an accept rule without
    extensions is returned. *)
Lemma Accept_fromQt_ill_formed_counterexample :
  tokens [55296%N] = [[55296%N]] /\
  Extension_fromQt [55296%N] = None /\
  Accept_fromQt [55296%N] = Some (acceptOf []).
Proof. repeat split; reflexivity. Qed.

(** C2, amended.  [Type::Accept::fromQt] on any text that is well-formed
    UTF-16: its loop returns within the fuel it is given; the result is
    the all-or-nothing parse of the tokens of the text, split on runs of
    white space (a token is a longest run of characters other than white
    space): on success the accept rule holds the extensions of the tokens
    in token order, and a failure comes with a token that
    [Extension::fromQt] rejects.  The two examples of the specification
    are the last two conjuncts. *)
Theorem Accept_fromQt_all_or_nothing (text : QString) :
  validUtf16 text = true ->
  tokens text =
    (let s1 := dropWhile space text in
     if nonEmpty s1
     then takeWhile nonSpace s1
            :: tokens (dropWhile space (dropWhile nonSpace s1))
     else []) /\
  Accept_fromQt_run text =
    match parseAll (tokens text) with
    | Some es => LoopExit (MkMimeType (map Extension_asVal es))
    | None => ReturnNullopt
    end /\
  Accept_fromQt text = option_map acceptOf (parseAll (tokens text)) /\
  match Accept_fromQt text with
  | Some a =>
      exists es,
        a = acceptOf es /\
        map Some es = map Extension_fromQt (tokens text)
  | None =>
      exists t, In t (tokens text) /\ Extension_fromQt t = None
  end /\
  isSome (Accept_fromQt text) =
    forallb (fun t => isSome (Extension_fromQt t)) (tokens text) /\
  Accept_fromQt (qs "*.png *.jpg") =
    Some (acceptOf [MkExtension (qs ".png"); MkExtension (qs ".jpg")]) /\
  Accept_fromQt (qs "*.png bad*name") = None.
Proof.
  intros Hv.
  split; [apply tokens_next|].
  split; [now rewrite Accept_fromQt_run_spec, Hv|].
  split; [now rewrite Accept_fromQt_spec, Hv|].
  rewrite Accept_fromQt_spec, Hv.
  pose proof (parseAll_cases (tokens text)) as Hc.
  split; [|split; [|split; reflexivity]].
  - destruct (parseAll (tokens text)) as [es|]; cbn [option_map].
    + now exists es.
    + exact Hc.
  - destruct (parseAll (tokens text)) as [es|]; cbn [option_map isSome].
    + symmetry. apply forallb_forall. intros t Ht.
      apply (in_map Extension_fromQt) in Ht. rewrite <- Hc in Ht.
      apply in_map_iff in Ht as (e & <- & _). reflexivity.
    + destruct Hc as (t & Hin & Hf). symmetry.
      apply not_true_is_false. intros Hall.
      rewrite forallb_forall in Hall. specialize (Hall t Hin).
      rewrite Hf in Hall. discriminate.
Qed.

Lemma Accept_fromQt_all_or_nothing_witness :
  Accept_fromQt (qs "*.gif *.bmp") =
  option_map acceptOf (parseAll (tokens (qs "*.gif *.bmp"))).
Proof.
  exact (proj1 (proj2 (proj2
    (@Accept_fromQt_all_or_nothing (qs "*.gif *.bmp") eq_refl)))).
Defined.

(** ** C3 *)

(** C3.  [Extension::fromQt] fails on every pure-wildcard token: one or
    more [*], or one or more [*], a [.] and one or more [*]. *)
Theorem Extension_fromQt_pure_wildcard (t : QString) :
  PureWildcard t -> Extension_fromQt t = None.
Proof.
  intros H. apply pureWildcard_iff in H.
  now rewrite Extension_fromQt_spec, H.
Qed.

Lemma Extension_fromQt_pure_wildcard_witness :
  PureWildcard (qs "*.*") /\ Extension_fromQt (qs "*.*") = None.
Proof.
  assert (H : PureWildcard (qs "*.*")) by (exists 0, 0; right; reflexivity).
  split; [exact H | exact (Extension_fromQt_pure_wildcard H)].
Defined.

Example Extension_fromQt_star : Extension_fromQt (qs "*") = None.
Proof. reflexivity. Qed.

Example Extension_fromQt_star_star : Extension_fromQt (qs "**") = None.
Proof. reflexivity. Qed.

Example Extension_fromQt_star_dot_star : Extension_fromQt (qs "*.*") = None.
Proof. reflexivity. Qed.

(** ** C4 *)

(** C4, as stated, fails: a token with a surrogate without its partner
    after the dot is not a pure wildcard and has the shape, yet
    [Extension::fromQt] returns [nullopt] on it, both matches being
    invalid. *)
Lemma Extension_fromQt_ill_formed_counterexample :
  ~ PureWildcard (qs ".p" ++ [55296%N] ++ qs "g") /\
  IsExtensionOf (qs ".p" ++ [55296%N] ++ qs "g")
    (qs ".p" ++ [55296%N] ++ qs "g") /\
  Extension_fromQt (qs ".p" ++ [55296%N] ++ qs "g") = None.
Proof.
  split; [|split; [|reflexivity]].
  - intros (n & m & [H | H]); discriminate H.
  - split; [now left|].
    exists (qs "p" ++ [55296%N] ++ qs "g").
    split; [reflexivity|]. split; [discriminate|].
    repeat constructor; discriminate.
Qed.

(** C4, amended.  On a token that is not a pure wildcard,
    [Extension::fromQt] succeeds exactly when the token is well-formed
    UTF-16 and the whole token is an optional single leading [*], a [.]
    and one or more characters other than [*]; the result is then the
    token from the [.] on.  Any other token fails. *)
Theorem Extension_fromQt_shape (t : QString) :
  ~ PureWildcard t ->
  (forall e,
     Extension_fromQt t = Some (MkExtension e) <->
     validUtf16 t = true /\ IsExtensionOf t e) /\
  (Extension_fromQt t = None <->
   validUtf16 t = false \/ forall e, ~ IsExtensionOf t e).
Proof.
  intros Hnp. rewrite Extension_fromQt_spec.
  destruct (pureWildcard t) eqn:Ep.
  { apply pureWildcard_iff in Ep. contradiction. }
  destruct (validUtf16 t).
  - split.
    + intros e. rewrite <- extensionOf_iff.
      destruct (extensionOf t) as [x|]; cbn [option_map]; split.
      * intros H. injection H as ->. now split.
      * intros [_ H]. injection H as ->. reflexivity.
      * discriminate.
      * intros [_ H]. discriminate H.
    + destruct (extensionOf t) as [x|] eqn:Ex; cbn [option_map]; split;
        intros H.
      * discriminate.
      * destruct H as [H | H]; [discriminate|].
        apply extensionOf_iff in Ex. now apply H in Ex.
      * right. intros e He. apply extensionOf_iff in He. congruence.
      * reflexivity.
  - split.
    + intros e. split; [discriminate | intros [H _]; discriminate H].
    + split; [now left | reflexivity].
Qed.

Lemma Extension_fromQt_shape_witness :
  ~ PureWildcard (qs "*.png") /\
  Extension_fromQt (qs "*.png") = Some (MkExtension (qs ".png")).
Proof.
  assert (H : ~ PureWildcard (qs "*.png")).
  { intros (n & m & [H | H]).
    - destruct n; discriminate H.
    - destruct n as [|[|n]]; destruct m; discriminate H. }
  split; [exact H|].
  apply (proj1 (Extension_fromQt_shape H)). split; [reflexivity|]. split.
  - right. reflexivity.
  - exists (qs "png"). split; [reflexivity|]. split; [discriminate|].
    repeat constructor; discriminate.
Defined.

Example Extension_fromQt_png :
  Extension_fromQt (qs ".png") = Some (MkExtension (qs ".png")).
Proof. reflexivity. Qed.

Example Extension_fromQt_star_png :
  Extension_fromQt (qs "*.png") = Some (MkExtension (qs ".png")).
Proof. reflexivity. Qed.

Example Extension_fromQt_readme : Extension_fromQt (qs "readme") = None.
Proof. reflexivity. Qed.

Example Extension_fromQt_inner_star : Extension_fromQt (qs ".p*g") = None.
Proof. reflexivity. Qed.

(** ** C5 *)

(** C5, as stated, fails: a spec of the shape with a surrogate without
    its partner after the closing parenthesis does not parse at all,
    although its GROUP2 does: the match of [Type::fromQt] is invalid. *)
Lemma Type_fromQt_ill_formed_counterexample :
  forallb notLParen (qs "Images ") = true /\
  forallb nonParen (qs "*.png") = true /\
  Accept_fromQt (qs "*.png") = Some (acceptOf [MkExtension (qs ".png")]) /\
  Type_fromQt (qs "Images " ++ lparen_c :: qs "*.png" ++ rparen_c :: [55296%N])
    = None.
Proof. repeat split; reflexivity. Qed.

(** C5, amended.  On a spec that is well-formed UTF-16 and has the shape
    GROUP1 [(]GROUP2[)]: a run without [(], then a parenthesised
    non-empty run without parentheses, then anything: [Type::fromQt]
    parses GROUP2 as the extension list, fails when that fails, and
    otherwise builds the type whose description is GROUP1 trimmed, i.e.
    GROUP1 without a run of white space at each end. *)
Theorem Type_fromQt_parenthesised (g1 g2 tl : QString) :
  validUtf16 (g1 ++ lparen_c :: g2 ++ rparen_c :: tl) = true ->
  forallb notLParen g1 = true ->
  g2 <> [] ->
  forallb nonParen g2 = true ->
  Type_fromQt (g1 ++ lparen_c :: g2 ++ rparen_c :: tl) =
    option_map (fun a => Type_new g1 (Some a)) (Accept_fromQt g2) /\
  (forall a,
     type_storage (Type_new g1 (Some a)) =
     [("description"%string, VString (trimmed g1));
      ("accept"%string, Accept_asVal a)]) /\
  exists l r,
    g1 = l ++ trimmed g1 ++ r /\
    forallb QChar_isSpace l = true /\
    forallb QChar_isSpace r = true /\
    stops QChar_isSpace (trimmed g1) /\
    stops QChar_isSpace (rev (trimmed g1)).
Proof.
  intros Hv H1 Hne H2. split.
  { rewrite Type_fromQt_parens by assumption. now rewrite Hv. }
  split; [intros a; apply Type_new_storage | apply trimmed_spec].
Qed.

Lemma Type_fromQt_parenthesised_witness :
  Type_fromQt (qs "Images (*.png *.jpg)") =
  Some (MkType
          [("description"%string, VString (qs "Images"));
           ("accept"%string,
            VObject [("application/octet-stream"%string,
                      VArray [VString (qs ".png"); VString (qs ".jpg")])])]).
Proof.
  assert (Hne : qs "*.png *.jpg" <> []) by discriminate.
  exact (proj1 (@Type_fromQt_parenthesised (qs "Images ") (qs "*.png *.jpg") []
                  eq_refl eq_refl Hne eq_refl)).
Defined.

(** ** C6 *)

(** C6, as stated, fails: ["(*.png"] has a parenthesis and no
    parenthesised group, yet it is not a parse failure; the text after the
    parenthesis is taken as the extension list. *)
Lemma Type_fromQt_open_paren_counterexample :
  hasParenGroup (qs "(*.png") = false /\
  forallb nonParen (qs "(*.png") = false /\
  Type_fromQt (qs "(*.png") =
    Some (Type_new [] (Some (acceptOf [MkExtension (qs ".png")]))).
Proof. repeat split; reflexivity. Qed.

(** C6, amended.  On a spec that is well-formed UTF-16 and is without
    the parenthesised shape, [Type::fromQt] skips any leading parentheses
    and takes the first run of characters other than parentheses as the
    extension list, with an empty description; it fails at this stage
    only when there is no such character.  The run is the entire spec
    when the spec has no parenthesis. *)
Theorem Type_fromQt_without_group (s : QString) :
  validUtf16 s = true ->
  hasParenGroup s = false ->
  Type_fromQt s =
    (let run := takeWhile nonParen (dropWhile isParen s) in
     if nonEmpty run
     then option_map (fun a => Type_new [] (Some a)) (Accept_fromQt run)
     else None) /\
  (forallb nonParen s = true ->
   takeWhile nonParen (dropWhile isParen s) = s).
Proof.
  intros Hv H. split.
  - rewrite Type_fromQt_spec, Hv, (typeSplit_plain _ H). cbv zeta.
    now destruct (nonEmpty (takeWhile nonParen (dropWhile isParen s))).
  - intros Hs.
    assert (Hd : dropWhile isParen s = s).
    { destruct s as [|c t]; [reflexivity|]. simpl in Hs |- *.
      apply andb_prop in Hs as [Hc _].
      change (nonParen c) with (negb (isParen c)) in Hc.
      apply negb_true_iff in Hc. now rewrite Hc. }
    rewrite Hd. now apply takeWhile_id.
Qed.

Lemma Type_fromQt_without_group_witness :
  Type_fromQt (qs "*.png)") =
  Some (Type_new [] (Some (acceptOf [MkExtension (qs ".png")]))).
Proof.
  exact (proj1 (@Type_fromQt_without_group (qs "*.png)") eq_refl eq_refl)).
Defined.

(** ** C7 *)

(** C7, as stated, fails: for [["*.pdf"]] the types list is not empty and
    [types] is set, yet [makeSaveFileOptions] sets no
    [excludeAcceptAllOption]. *)
Lemma makeSaveFileOptions_exclude_counterexample :
  acceptedTypes [qs "*.pdf"] <> [] /\
  val_get "types" (makeSaveFileOptions [qs "*.pdf"] []) <> None /\
  val_get "excludeAcceptAllOption" (makeSaveFileOptions [qs "*.pdf"] [])
    = None.
Proof. repeat split; discriminate. Qed.

(** C7, amended.  [makeSaveFileOptions] never sets
    [excludeAcceptAllOption]; it sets [suggestedName] when the name is not
    empty and [types], to the list of parsed types, when that list is not
    empty, and nothing else. *)
Theorem makeSaveFileOptions_keys (filterList : QStringList)
    (suggestedName : std_string) :
  let options := makeSaveFileOptions filterList suggestedName in
  options =
    VObject
      (match suggestedName with
       | [] => []
       | _ :: _ => [("suggestedName"%string, VString suggestedName)]
       end ++
       match acceptedTypes filterList with
       | [] => []
       | ts => [("types"%string, VArray ts)]
       end) /\
  val_get "excludeAcceptAllOption" options = None /\
  val_get "types" options =
    match acceptedTypes filterList with
    | [] => None
    | ts => Some (VArray ts)
    end.
Proof.
  cbv zeta. rewrite makeSaveFileOptions_spec.
  destruct suggestedName; destruct (acceptedTypes filterList);
    repeat split; reflexivity.
Qed.

(** ** C8 *)

(** C8, as stated, fails: ["*.txt"] is parsed through group 3, and the
    resulting type does carry a [description], the empty string. *)
Lemma Type_fromQt_description_counterexample :
  exists m t,
    regex_match typeRegex (qs "*.txt") 0 = Some m /\
    hasCaptured m FilterListFromParensIndex = false /\
    hasCaptured m PlainFilterListIndex = true /\
    Type_fromQt (qs "*.txt") = Some t /\
    get "description" (type_storage t) <> None.
Proof.
  exists (Match (qs "*.txt") 0 5 [(3, (0, 5))]).
  exists (Type_new [] (Some (acceptOf [MkExtension (qs ".txt")]))).
  repeat split; try reflexivity. discriminate.
Qed.

(** C8, amended.  When the match of [Type::fromQt] did not capture the
    parenthesised groups, the resulting type has its [description] set,
    to the empty string, and its [accept] built from group 3. *)
Theorem Type_fromQt_plain_description (s : QString)
    (m : QRegularExpressionMatch) (t : Type_) :
  regex_match typeRegex s 0 = Some m ->
  hasCaptured m FilterListFromParensIndex = false ->
  Type_fromQt s = Some t ->
  hasCaptured m PlainFilterListIndex = true /\
  get "description" (type_storage t) = Some (VString []) /\
  exists es,
    parseAll (tokens (capturedView m PlainFilterListIndex)) = Some es /\
    type_storage t =
      [("description"%string, VString []);
       ("accept"%string, Accept_asVal (acceptOf es))].
Proof.
  intros Hm H2. unfold Type_fromQt. rewrite Hm, H2.
  assert (Hv : validUtf16 (subject m) = true).
  { unfold regex_match in Hm. cbn [Nat.leb skipn] in Hm.
    destruct (validUtf16 s) eqn:Hs; [|discriminate].
    destruct (search typeRegex 0 s) as [[p st]|]; [|discriminate].
    injection Hm as <-. exact Hs. }
  assert (H13 : hasCaptured m DescriptionIndex = false /\
                hasCaptured m PlainFilterListIndex = true).
  { unfold regex_match in Hm. cbn [Nat.leb skipn] in Hm.
    destruct (validUtf16 s); [|discriminate].
    destruct (search typeRegex 0 s) as [[p st]|] eqn:Es; [|discriminate].
    injection Hm as <-.
    apply search_type_caps in Es as [(a & b & Hc) | (a & Hc)];
      unfold hasCaptured, groupOffsets in *; cbn [captured] in *;
      rewrite Hc in *.
    - discriminate H2.
    - split; reflexivity. }
  destruct H13 as [H1 H3].
  rewrite H1, Accept_fromQt_spec, (validUtf16_capturedView _ _ Hv).
  destruct (parseAll (tokens (capturedView m PlainFilterListIndex)))
    as [es|]; [|discriminate].
  cbn [option_map]. intros H. injection H as <-.
  split; [exact H3|]. split; [reflexivity|].
  exists es. split; reflexivity.
Qed.

Lemma Type_fromQt_plain_description_witness :
  get "description"
    (type_storage (Type_new [] (Some (acceptOf [MkExtension (qs ".txt")]))))
  = Some (VString []).
Proof.
  exact (proj1 (proj2
    (@Type_fromQt_plain_description (qs "*.txt")
       (Match (qs "*.txt") 0 5 [(3, (0, 5))])
       (Type_new [] (Some (acceptOf [MkExtension (qs ".txt")])))
       eq_refl eq_refl eq_refl))).
Defined.

(** ** C9 *)

(** C9.  Every extension that [Extension::fromQt] produces begins with a
    [.], has something after it and holds no [*]; hence so does every
    entry of the accepted-extensions array of every type in the options
    built by [makeOpenFileOptions] and [makeSaveFileOptions]. *)
Theorem Extension_invariant :
  (forall t e,
     Extension_fromQt t = Some e -> ValidExtension (ext_storage e)) /\
  (forall filterList acceptMultiple v,
     val_get "types" (makeOpenFileOptions filterList acceptMultiple) = Some v ->
     exists ts, v = VArray ts /\ Forall ValidType ts) /\
  (forall filterList suggestedName v,
     val_get "types" (makeSaveFileOptions filterList suggestedName) = Some v ->
     exists ts, v = VArray ts /\ Forall ValidType ts).
Proof.
  split; [exact Extension_fromQt_valid|].
  split.
  - intros fl m v. rewrite makeOpenFileOptions_spec.
    pose proof (acceptedTypes_valid fl) as Hv.
    destruct (acceptedTypes fl) as [|t ts]; cbn; [discriminate|].
    intros H. injection H as <-. eauto.
  - intros fl name v. rewrite makeSaveFileOptions_spec.
    pose proof (acceptedTypes_valid fl) as Hv.
    destruct name; destruct (acceptedTypes fl) as [|t ts]; cbn;
      try discriminate; intros H; injection H as <-; eauto.
Qed.

Lemma Extension_invariant_witness :
  Extension_fromQt (qs "*.png") = Some (MkExtension (qs ".png")) /\
  ValidExtension (qs ".png").
Proof.
  split; [reflexivity|].
  exact (proj1 Extension_invariant (qs "*.png") (MkExtension (qs ".png"))
           eq_refl).
Defined.

(** ** C10 *)



(** * Further properties of the filter translation *)

(** ** Extension::fromQt *)

Lemma pureWildcard_no_extension (t : QString) :
  pureWildcard t = true -> extensionOf t = None.
Proof.
  intros H. apply pureWildcard_iff in H as (n & m & [-> | ->]).
  - destruct n as [|n]; reflexivity.
  - destruct n as [|n]; reflexivity.
Qed.

Lemma extensionOf_fixed (t e : QString) :
  extensionOf t = Some e -> extensionOf e = Some e /\ pureWildcard e = false.
Proof.
  intros H. apply extensionOf_iff in H as [_ (x & -> & Hne & Hx)]. split.
  - apply extensionOf_iff. split; [now left|]. now exists x.
  - reflexivity.
Qed.

(** X1.  An extension that [Extension::fromQt] returns parses to itself. *)
Theorem Extension_fromQt_idempotent (t : QString) (e : Extension) :
  Extension_fromQt t = Some e ->
  Extension_fromQt (ext_storage e) = Some e.
Proof.
  rewrite !Extension_fromQt_spec.
  destruct (pureWildcard t); [discriminate|].
  destruct (validUtf16 t) eqn:Hv; [|discriminate].
  destruct (extensionOf t) as [x|] eqn:Ex; [|discriminate].
  intros H. injection H as <-. cbn [Extension_new ext_storage].
  assert (Hx : validUtf16 x = true).
  { apply extensionOf_iff in Ex as [[-> | ->] _]; exact Hv. }
  apply extensionOf_fixed in Ex as [-> ->]. now rewrite Hx.
Qed.

Lemma Extension_fromQt_idempotent_witness :
  Extension_fromQt (qs ".tar.gz") = Some (MkExtension (qs ".tar.gz")).
Proof.
  exact (@Extension_fromQt_idempotent (qs "*.tar.gz")
           (MkExtension (qs ".tar.gz")) eq_refl).
Defined.

(** X2.  The accept-all check of [Extension::fromQt] never decides: the
    result is what the file-name pattern alone gives, its second group
    when it matches and [nullopt] when it does not. *)
Theorem Extension_fromQt_filename_only (t : QString) :
  Extension_fromQt t =
  option_map (fun m => Extension_new (capturedView m 2))
    (regex_match qtFilenameMatcherRegex t 0).
Proof.
  rewrite Extension_fromQt_spec.
  pose proof (filename_match t) as Hf.
  destruct (pureWildcard t) eqn:Ep.
  - apply pureWildcard_no_extension in Ep. rewrite Ep in Hf.
    destruct (regex_match qtFilenameMatcherRegex t 0); [|reflexivity].
    now destruct (validUtf16 t).
  - destruct (validUtf16 t).
    + rewrite <- Hf.
      now destruct (regex_match qtFilenameMatcherRegex t 0).
    + now destruct (regex_match qtFilenameMatcherRegex t 0).
Qed.

(** ** Type::Accept::fromQt *)

Lemma split_ws_blank (sp cur : QString) :
  forallb space sp = true -> split_ws cur sp = flush cur.
Proof.
  revert cur. induction sp as [|c sp IH]; intros cur H; [reflexivity|].
  simpl in H |- *. apply andb_prop in H as [Hc Hsp].
  rewrite Hc, (IH [] Hsp). apply app_nil_r.
Qed.

Lemma split_ws_app_blank (s sp : QString) :
  forallb space sp = true ->
  forall cur, split_ws cur (s ++ sp) = split_ws cur s.
Proof.
  intros H. induction s as [|c s IH]; intros cur; cbn [app split_ws].
  - now apply split_ws_blank.
  - destruct (space c); now rewrite IH.
Qed.

Lemma split_ws_app_space (a b : QString) (w : QChar) :
  space w = true ->
  forall cur, split_ws cur (a ++ w :: b) = split_ws cur a ++ split_ws [] b.
Proof.
  intros Hw. induction a as [|c a IH]; intros cur; cbn [app split_ws].
  - now rewrite Hw.
  - destruct (space c); rewrite IH; [now rewrite app_assoc | reflexivity].
Qed.

Lemma parseAll_app (x y : list QString) :
  parseAll (x ++ y) =
  match parseAll x, parseAll y with
  | Some a, Some b => Some (a ++ b)
  | _, _ => None
  end.
Proof.
  induction x as [|t x IH]; cbn [app parseAll].
  - now destruct (parseAll y).
  - destruct (Extension_fromQt t); [|reflexivity].
    rewrite IH. destruct (parseAll x); [|reflexivity].
    now destruct (parseAll y).
Qed.

Lemma Accept_entries_acceptOf (es : list Extension) :
  Accept_entries (acceptOf es) = map Extension_asVal es.
Proof. reflexivity. Qed.

(** X3.  Joining two extension lists, both well-formed UTF-16, with a
    white-space character: the joined text parses exactly when both parts
    do, and its accept rule then holds the extensions of the first part
    followed by those of the second. *)
Theorem Accept_fromQt_join (a b : QString) (w : QChar) :
  validUtf16 a = true ->
  validUtf16 b = true ->
  space w = true ->
  Accept_fromQt (a ++ w :: b) =
  match Accept_fromQt a, Accept_fromQt b with
  | Some x, Some y =>
      Some (MkAccept [("application/octet-stream"%string,
                       VArray (Accept_entries x ++ Accept_entries y))])
  | _, _ => None
  end.
Proof.
  intros Ha Hb Hw. rewrite !Accept_fromQt_spec, Ha, Hb.
  assert (Hv : validUtf16 (a ++ w :: b) = true).
  { rewrite validUtf16_app, Ha.
    change (validUtf16 (w :: b))
      with (negb (isSurrogate w) && validUtf16 b).
    now rewrite (space_not_surrogate _ Hw), Hb. }
  rewrite Hv. unfold tokens.
  rewrite (@split_ws_app_space a b w Hw), parseAll_app.
  destruct (parseAll (split_ws [] a)) as [x|]; [|reflexivity].
  destruct (parseAll (split_ws [] b)) as [y|]; [|reflexivity].
  cbn [option_map]. rewrite !Accept_entries_acceptOf, <- map_app.
  reflexivity.
Qed.

Lemma Accept_fromQt_join_witness :
  Accept_fromQt (qs "*.png *.jpg") =
  Some (MkAccept [("application/octet-stream"%string,
                   VArray [VString (qs ".png"); VString (qs ".jpg")])]).
Proof.
  exact (@Accept_fromQt_join (qs "*.png") (qs "*.jpg") (ch " ")
           eq_refl eq_refl eq_refl).
Defined.

(** X4.  White space around an extension list does not matter to
    [Type::Accept::fromQt]. *)
Theorem Accept_fromQt_padding (sp1 s sp2 : QString) :
  forallb space sp1 = true ->
  forallb space sp2 = true ->
  Accept_fromQt (sp1 ++ s ++ sp2) = Accept_fromQt s.
Proof.
  intros H1 H2. rewrite !Accept_fromQt_spec, !validUtf16_app.
  rewrite (validUtf16_blank _ H1), (validUtf16_blank _ H2), andb_true_r.
  cbn [andb]. unfold tokens.
  now rewrite (@split_ws_spaces sp1 (s ++ sp2) H1), (@split_ws_app_blank s sp2 H2).
Qed.

Lemma Accept_fromQt_padding_witness :
  Accept_fromQt (qs "  *.png ") = Accept_fromQt (qs "*.png").
Proof.
  exact (@Accept_fromQt_padding (qs "  ") (qs "*.png") (qs " ")
           eq_refl eq_refl).
Defined.

Lemma split_ws_chars (s : QString) :
  forall cur,
    Forall (fun t => forall c, In c t -> In c cur \/ In c s) (split_ws cur s).
Proof.
  induction s as [|c s IH]; intros cur; cbn [split_ws].
  - destruct cur; constructor; [|constructor]. intros d Hd. now left.
  - destruct (space c).
    + apply Forall_app. split.
      * destruct cur; constructor; [|constructor]. intros d Hd. now left.
      * eapply Forall_impl; [|apply (IH [])].
        intros t Ht d Hd. destruct (Ht d Hd) as [[] | Hin].
        right. now right.
    + eapply Forall_impl; [|apply (IH (cur ++ [c]))].
      intros t Ht d Hd. destruct (Ht d Hd) as [Hin | Hin].
      * apply in_app_or in Hin as [Hin | [<- | []]]; [now left|].
        right. now left.
      * right. now right.
Qed.

Lemma split_ws_nonSpace (s : QString) :
  forall cur,
    forallb nonSpace cur = true ->
    Forall (fun t => forallb nonSpace t = true) (split_ws cur s).
Proof.
  induction s as [|c s IH]; intros cur Hcur; cbn [split_ws].
  - destruct cur; constructor; [assumption | constructor].
  - destruct (space c) eqn:Ec.
    + apply Forall_app. split.
      * destruct cur; constructor; [assumption | constructor].
      * now apply IH.
    + apply IH. rewrite forallb_app, Hcur. simpl.
      now rewrite nonSpace_space, Ec.
Qed.

Lemma Extension_fromQt_suffix (t : QString) (e : Extension) :
  Extension_fromQt t = Some e ->
  forall c, In c (ext_storage e) -> In c t.
Proof.
  rewrite Extension_fromQt_spec.
  destruct (pureWildcard t); [discriminate|].
  destruct (validUtf16 t); [|discriminate].
  destruct (extensionOf t) as [x|] eqn:Ex; [|discriminate].
  intros H. injection H as <-. cbn [Extension_new ext_storage].
  apply extensionOf_iff in Ex as [[-> | ->] _]; intros c Hc;
    [assumption | now right].
Qed.

(** The extensions of a parse come one per token, each from the
    characters of its token. *)
Lemma parseAll_chars (ts : list QString) :
  forall es,
    parseAll ts = Some es ->
    Forall2 (fun t e => forall c, In c (ext_storage e) -> In c t) ts es.
Proof.
  induction ts as [|t ts IH]; cbn [parseAll]; intros es H.
  - injection H as <-. constructor.
  - destruct (Extension_fromQt t) as [e|] eqn:Et; [|discriminate].
    destruct (parseAll ts) as [es'|]; [|discriminate].
    injection H as <-. constructor; [|now apply IH].
    now apply Extension_fromQt_suffix.
Qed.

Lemma parseAll_tokens_entries (s : QString) (es : list Extension) :
  parseAll (tokens s) = Some es ->
  List.length (map ext_storage es) = List.length (tokens s) /\
  Forall (fun e =>
            ValidExtension e /\
            forallb nonSpace e = true /\
            forall c, In c e -> In c s) (map ext_storage es).
Proof.
  intros Ep. split.
  - rewrite length_map.
    pose proof (parseAll_chars _ Ep) as Hc.
    symmetry. now apply Forall2_length in Hc.
  - pose proof (parseAll_valid _ Ep) as Hv.
    pose proof (parseAll_chars _ Ep) as Hc.
    pose proof (split_ws_nonSpace s [] eq_refl) as Hn.
    pose proof (split_ws_chars s []) as Hs.
    fold (tokens s) in Hn, Hs.
    clear Ep. revert Hv Hn Hs.
    induction Hc as [|t e ts es' Hte Hc IH]; intros Hv Hn Hs;
      [constructor|].
    cbn [map] in *.
    inversion Hv; subst. inversion Hn; subst. inversion Hs; subst.
    constructor; [|now apply IH].
    split; [assumption|]. split.
    + apply forallb_forall. intros c Hc'.
      match goal with
      | Ht : forallb nonSpace t = true |- _ =>
          rewrite forallb_forall in Ht; apply Ht
      end.
      now apply Hte.
    + intros c Hc'.
      match goal with
      | Ht : forall c, In c t -> In c [] \/ In c s |- _ =>
          destruct (Ht c (Hte c Hc')) as [[] | Hin]; exact Hin
      end.
Qed.

Lemma Accept_fromQt_storage_entries (s : QString) (a : Accept) :
  Accept_fromQt s = Some a ->
  exists es,
    accept_storage a =
      [("application/octet-stream"%string, VArray (map VString es))] /\
    (if validUtf16 s
     then List.length es = List.length (tokens s)
     else es = []) /\
    Forall (fun e =>
              ValidExtension e /\
              forallb nonSpace e = true /\
              forall c, In c e -> In c s) es.
Proof.
  rewrite Accept_fromQt_spec. destruct (validUtf16 s).
  - destruct (parseAll (tokens s)) as [es|] eqn:Ep; [|discriminate].
    cbn [option_map]. intros H. injection H as <-.
    destruct (parseAll_tokens_entries _ Ep) as [Hl Hf].
    exists (map ext_storage es). split; [|split; assumption].
    unfold acceptOf. cbn [accept_storage]. now rewrite map_map.
  - intros H. injection H as <-. exists [].
    split; [reflexivity|]. split; [reflexivity | constructor].
Qed.

(** X5.  The accept rule that [Type::Accept::fromQt] returns has the one
    key [application/octet-stream], holding an array of strings: one per
    token of the text when the text is well-formed UTF-16, none when it
    is not.  Each string is a valid extension made of characters of the
    text, none of them white space. *)
Theorem Accept_fromQt_entries (s : QString) (a : Accept) :
  Accept_fromQt s = Some a ->
  exists es,
    accept_storage a =
      [("application/octet-stream"%string, VArray (map VString es))] /\
    (if validUtf16 s
     then List.length es = List.length (tokens s)
     else es = []) /\
    Forall (fun e =>
              ValidExtension e /\
              forallb nonSpace e = true /\
              forall c, In c e -> In c s) es.
Proof. apply Accept_fromQt_storage_entries. Qed.

Lemma Accept_fromQt_entries_witness :
  exists es,
    accept_storage (acceptOf [MkExtension (qs ".png")]) =
      [("application/octet-stream"%string, VArray (map VString es))] /\
    (if validUtf16 (qs " *.png")
     then List.length es = List.length (tokens (qs " *.png"))
     else es = []) /\
    Forall (fun e =>
              ValidExtension e /\
              forallb nonSpace e = true /\
              forall c, In c e -> In c (qs " *.png")) es.
Proof.
  exact (@Accept_fromQt_entries (qs " *.png")
           (acceptOf [MkExtension (qs ".png")]) eq_refl).
Defined.

(** ** Type::fromQt *)

(** X6.  [Type::fromQt] on any spec: a spec that is not well-formed
    UTF-16 fails; on a well-formed one it is a scan: at each start offset
    in turn, the parenthesised shape read from there (text up to the first
    [(], a non-empty run without parentheses, a [)]) gives the description
    and the filter list; failing that, a character other than a
    parenthesis starts the filter list, with no description; failing that,
    the next offset.  The spec fails when no offset is left or the filter
    list does not parse. *)
Theorem Type_fromQt_scan (s : QString) :
  Type_fromQt s =
    (if validUtf16 s then
       match typeSplit s with
       | Some (d, filterList) =>
           option_map
             (fun a =>
                Type_new (match d with Some g => g | None => [] end) (Some a))
             (Accept_fromQt filterList)
       | None => None
       end
     else None) /\
  typeSplit s =
    match parenGroupAt s with
    | Some (g1, g2) => Some (Some g1, g2)
    | None =>
        match s with
        | [] => None
        | c :: t =>
            if nonParen c then Some (None, takeWhile nonParen s)
            else typeSplit t
        end
    end.
Proof. split; [apply Type_fromQt_spec | apply typeSplit_eq]. Qed.

Lemma hasParenGroup_parens (s : QString) :
  forallb isParen s = true -> hasParenGroup s = false.
Proof.
  induction s as [|c t IH]; [reflexivity|].
  cbn [forallb hasParenGroup]. intros H. apply andb_prop in H as [_ Ht].
  rewrite (IH Ht), orb_false_r.
  destruct t as [|d t']; [now rewrite andb_false_r|].
  cbn [forallb] in Ht. apply andb_prop in Ht as [Hd _].
  cbn [takeWhile]. change (nonParen d) with (negb (isParen d)).
  rewrite Hd. cbn [negb nonEmpty]. now rewrite andb_false_r.
Qed.

(** X7.  A spec without any character other than parentheses, the empty
    spec included, never parses. *)
Theorem Type_fromQt_only_parens (s : QString) :
  forallb isParen s = true -> Type_fromQt s = None.
Proof.
  intros H. rewrite Type_fromQt_spec.
  destruct (validUtf16 s); [|reflexivity].
  rewrite (typeSplit_plain _ (hasParenGroup_parens _ H)). cbv zeta.
  now rewrite (dropWhile_nil _ _ H).
Qed.

Lemma Type_fromQt_only_parens_witness : Type_fromQt (qs "(())") = None.
Proof. exact (@Type_fromQt_only_parens (qs "(())") eq_refl). Defined.

Lemma parenGroupAt_cons (c : QChar) (g t : QString) :
  forallb notLParen (c :: g) = true ->
  (nonEmpty (takeWhile nonParen t) &&
   match dropWhile nonParen t with
   | d :: _ => lit ")" d
   | [] => false
   end) = false ->
  parenGroupAt ((c :: g) ++ lparen_c :: t) = None.
Proof.
  intros Hg Ht. unfold parenGroupAt.
  rewrite dropWhile_app; [|assumption | exact notLParen_lparen].
  destruct (takeWhile nonParen t) as [|a x]; [reflexivity|].
  destruct (dropWhile nonParen t) as [|d t2]; [reflexivity|].
  cbn [nonEmpty andb] in Ht. now rewrite Ht.
Qed.

Lemma nonParen_notLParen (c : QChar) : nonParen c = true -> notLParen c = true.
Proof.
  intros H. apply nonParen_lits in H as [H _].
  now rewrite notLParen_negb, H.
Qed.

Lemma takeWhile_app_stop (p : QChar -> bool) (x y : QString) (d : QChar) :
  p d = false -> takeWhile p (x ++ d :: y) = takeWhile p x.
Proof.
  intros Hd. induction x as [|c x IH]; cbn [app takeWhile].
  - now rewrite Hd.
  - destruct (p c); [now rewrite IH | reflexivity].
Qed.

(** X8.  When a well-formed spec starts with a character other than a
    parenthesis and its first [(] does not open a complete group, the
    filter list is the text from the start up to the first parenthesis of
    either kind and the description is empty, whatever follows, a complete
    group included. *)
Theorem Type_fromQt_first_paren (c : QChar) (g t : QString) :
  validUtf16 ((c :: g) ++ lparen_c :: t) = true ->
  nonParen c = true ->
  forallb notLParen g = true ->
  (nonEmpty (takeWhile nonParen t) &&
   match dropWhile nonParen t with
   | d :: _ => lit ")" d
   | [] => false
   end) = false ->
  Type_fromQt ((c :: g) ++ lparen_c :: t) =
  option_map (fun a => Type_new [] (Some a))
    (Accept_fromQt (takeWhile nonParen (c :: g))).
Proof.
  intros Hv Hc Hg Ht. rewrite Type_fromQt_spec, Hv, typeSplit_eq.
  rewrite parenGroupAt_cons; [| | assumption].
  2:{ cbn [forallb]. now rewrite (nonParen_notLParen _ Hc), Hg. }
  cbn [app]. rewrite Hc.
  change (c :: g ++ lparen_c :: t) with ((c :: g) ++ lparen_c :: t).
  now rewrite (@takeWhile_app_stop nonParen (c :: g) t lparen_c eq_refl).
Qed.

Lemma Type_fromQt_first_paren_witness :
  Type_fromQt (qs ".a)b(c") =
  Some (Type_new [] (Some (acceptOf [MkExtension (qs ".a")]))).
Proof.
  exact (@Type_fromQt_first_paren (ch ".") (qs "a)b") (qs "c")
           eq_refl eq_refl eq_refl eq_refl).
Defined.

Example Type_fromQt_later_group :
  Type_fromQt (qs "*.png (a(*.jpg)") =
  Some (Type_new [] (Some (acceptOf [MkExtension (qs ".png")]))).
Proof. reflexivity. Qed.



Lemma dropWhile_stops_id (p : QChar -> bool) (s : QString) :
  stops p s -> dropWhile p s = s.
Proof. destruct s as [|c t]; simpl; [reflexivity|]. now intros ->. Qed.

Lemma trimmed_idempotent (s : QString) : trimmed (trimmed s) = trimmed s.
Proof.
  destruct (trimmed_spec s) as (l & r & _ & _ & _ & H1 & H2).
  unfold trimmed at 1.
  now rewrite (dropWhile_stops_id _ _ H1), (dropWhile_stops_id _ _ H2),
    rev_involutive.
Qed.

Lemma trimmed_In (s : QString) (c : QChar) : In c (trimmed s) -> In c s.
Proof.
  destruct (trimmed_spec s) as (l & r & Hs & _). intros H.
  rewrite Hs. apply in_or_app. right. apply in_or_app. now left.
Qed.

Lemma parenGroupAt_runs (s g1 g2 : QString) :
  parenGroupAt s = Some (g1, g2) ->
  forallb notLParen g1 = true /\ forallb nonParen g2 = true.
Proof.
  unfold parenGroupAt. intros H.
  destruct (dropWhile notLParen s) as [|c t]; [discriminate|].
  destruct (takeWhile nonParen t) as [|a x] eqn:Ex; [discriminate|].
  destruct (dropWhile nonParen t) as [|d t2]; [discriminate|].
  destruct (lit ")" d); [|discriminate].
  injection H as <- <-. split; [|rewrite <- Ex]; apply takeWhile_all.
Qed.

Lemma typeSplit_runs (s : QString) :
  forall d fl,
    typeSplit s = Some (d, fl) ->
    forallb nonParen fl = true /\
    match d with Some g => forallb notLParen g = true | None => True end.
Proof.
  induction s as [|c t IH]; intros d fl; rewrite typeSplit_eq.
  - discriminate.
  - destruct (parenGroupAt (c :: t)) as [[g1 g2]|] eqn:Ep.
    + intros H. injection H as <- <-.
      apply parenGroupAt_runs in Ep as [H1 H2]. now split.
    + destruct (nonParen c) eqn:Ec.
      * intros H. injection H as <- <-. split; [|exact I].
        apply (takeWhile_all nonParen (c :: t)).
      * apply IH.
Qed.

(** X10.  Every type that [Type::fromQt] returns has exactly the keys
    [description] and [accept], in that order.  The description is
    trimmed (trimming it again changes nothing, and it neither starts nor
    ends with white space) and holds no [(]; the accepted extensions are
    valid and hold no parenthesis and no white space. *)
Theorem Type_fromQt_storage (s : QString) (t : Type_) :
  Type_fromQt s = Some t ->
  exists d es,
    type_storage t =
      [("description"%string, VString d);
       ("accept"%string,
        VObject [("application/octet-stream"%string,
                  VArray (map VString es))])] /\
    trimmed d = d /\
    stops QChar_isSpace d /\ stops QChar_isSpace (rev d) /\
    ~ In lparen_c d /\
    Forall (fun e =>
              ValidExtension e /\
              forallb nonSpace e = true /\
              forallb nonParen e = true) es.
Proof.
  rewrite Type_fromQt_spec.
  destruct (validUtf16 s); [|discriminate].
  destruct (typeSplit s) as [[d fl]|] eqn:Es; [|discriminate].
  destruct (Accept_fromQt fl) as [a|] eqn:Ea; [|discriminate].
  cbn [option_map]. intros H. injection H as <-.
  apply typeSplit_runs in Es as [Hfl Hd].
  destruct (Accept_fromQt_storage_entries _ Ea) as (es & Hst & _ & Hes).
  set (g := match d with Some g => g | None => [] end).
  assert (Hg : forallb notLParen g = true).
  { unfold g. destruct d; [assumption | reflexivity]. }
  destruct (trimmed_spec g) as (l & r & _ & _ & _ & Hs1 & Hs2).
  exists (trimmed g), es. repeat split.
  - rewrite <- Hst. reflexivity.
  - apply trimmed_idempotent.
  - exact Hs1.
  - exact Hs2.
  - intros Hin. apply trimmed_In in Hin.
    rewrite forallb_forall in Hg. specialize (Hg _ Hin). discriminate.
  - eapply Forall_impl; [|exact Hes].
    intros e (Hv & Hn & Hc). split; [assumption|]. split; [assumption|].
    apply forallb_forall. intros c Hin.
    rewrite forallb_forall in Hfl. apply Hfl. now apply Hc.
Qed.

Lemma Type_fromQt_storage_witness :
  exists d es,
    type_storage
      (Type_new (qs " Images ") (Some (acceptOf [MkExtension (qs ".png")])))
    = [("description"%string, VString d);
       ("accept"%string,
        VObject [("application/octet-stream"%string,
                  VArray (map VString es))])] /\
    trimmed d = d /\
    stops QChar_isSpace d /\ stops QChar_isSpace (rev d) /\
    ~ In lparen_c d /\
    Forall (fun e =>
              ValidExtension e /\
              forallb nonSpace e = true /\
              forallb nonParen e = true) es.
Proof.
  exact (@Type_fromQt_storage (qs " Images (*.png)")
           (Type_new (qs " Images ") (Some (acceptOf [MkExtension (qs ".png")])))
           eq_refl).
Defined.

(** ** qtFilterListToTypes and the entry points *)

Lemma acceptedTypes_app (a b : QStringList) :
  acceptedTypes (a ++ b) = acceptedTypes a ++ acceptedTypes b.
Proof. unfold acceptedTypes. apply flat_map_app. Qed.

Lemma acceptedTypes_length (filterList : QStringList) :
  List.length (acceptedTypes filterList) <= List.length filterList.
Proof.
  induction filterList as [|f fl IH]; [apply Nat.le_refl|].
  rewrite acceptedTypes_cons.
  destruct (Type_fromQt f); simpl; lia.
Qed.

Lemma typesOf_spec (filterList : QStringList) :
  typesOf (qtFilterListToTypes filterList) = acceptedTypes filterList.
Proof.
  rewrite qtFilterListToTypes_spec.
  now destruct (acceptedTypes filterList).
Qed.

(** X11.  [qtFilterListToTypes] returns [nullopt] exactly when no filter
    of the list parses; the array it returns otherwise is never empty, is
    no longer than the list and holds well-formed types only. *)
Theorem qtFilterListToTypes_result (filterList : QStringList) :
  isSome (qtFilterListToTypes filterList) =
    existsb (fun f => isSome (Type_fromQt f)) filterList /\
  match qtFilterListToTypes filterList with
  | Some v =>
      exists t ts,
        v = VArray (t :: ts) /\
        List.length (t :: ts) <= List.length filterList /\
        Forall ValidType (t :: ts)
  | None => True
  end.
Proof.
  rewrite qtFilterListToTypes_spec.
  pose proof (acceptedTypes_nil filterList) as Hn.
  pose proof (acceptedTypes_length filterList) as Hl.
  pose proof (acceptedTypes_valid filterList) as Hv.
  assert (He : forall l : QStringList,
    existsb (fun f => isSome (Type_fromQt f)) l =
    negb (forallb (fun f => negb (isSome (Type_fromQt f))) l)).
  { induction l as [|f l IH]; [reflexivity|]. cbn [existsb forallb].
    rewrite IH. now destruct (isSome (Type_fromQt f)). }
  rewrite He, <- Hn.
  destruct (acceptedTypes filterList) as [|t ts]; split;
    try reflexivity; try exact I.
  exists t, ts. now repeat split.
Qed.

(** X12.  The types of a concatenated filter list are the types of its
    first part followed by those of its second part. *)
Theorem qtFilterListToTypes_app (a b : QStringList) :
  typesOf (qtFilterListToTypes (a ++ b)) =
  typesOf (qtFilterListToTypes a) ++ typesOf (qtFilterListToTypes b).
Proof. rewrite !typesOf_spec. apply acceptedTypes_app. Qed.

(** X13.  The open and the save options built from one filter list carry
    the same [types], whatever their other arguments: the array that
    [qtFilterListToTypes] returns, or no such key when it returns
    [nullopt]. *)
Theorem open_save_same_types (filterList : QStringList)
    (acceptMultiple : bool) (suggestedName : std_string) :
  val_get "types" (makeOpenFileOptions filterList acceptMultiple) =
    qtFilterListToTypes filterList /\
  val_get "types" (makeSaveFileOptions filterList suggestedName) =
    qtFilterListToTypes filterList.
Proof.
  rewrite makeOpenFileOptions_spec, makeSaveFileOptions_spec,
    qtFilterListToTypes_spec.
  destruct suggestedName; destruct (acceptedTypes filterList);
    split; reflexivity.
Qed.

(** * Properties of the X11 device integration *)

(** ** EventReader::run and sendConnectionEvent *)

Lemma land_clear_send_bit (r : Z) :
  Z.land (Z.lor r 0x80) (Z.lnot 0x80) = Z.land r (Z.lnot 0x80).
Proof.
  apply Z.bits_inj'. intros n Hn.
  rewrite !Z.land_spec, Z.lor_spec, Z.lnot_spec by assumption.
  now destruct (Z.testbit r n), (Z.testbit 128 n).
Qed.

(** X14.  The reader ignores the top bit of [response_type], the mark of
    an event sent by another client: an event is handled the same with
    and without it. *)
Theorem EventReader_handle_send_bit (i : QEglFSX11Integration)
    (rt f sq w t : Z) (d : list Z) :
  EventReader_handle i (xcb.Event (Z.lor rt 0x80) f sq w t d) =
  EventReader_handle i (xcb.Event rt f sq w t d).
Proof.
  unfold EventReader_handle. cbn [xcb.response_type].
  now rewrite land_clear_send_bit.
Qed.

Lemma response_type_client_message (rt : Z) :
  (0 <= rt < 256)%Z ->
  ((Z.land rt (Z.lnot 0x80) mod 2 ^ 32 =? xcb.XCB_CLIENT_MESSAGE)%Z
   = ((rt =? 33) || (rt =? 161))%Z).
Proof.
  intros H.
  assert (Hall :
    forallb (fun n =>
               let r := Z.of_nat n in
               Bool.eqb
                 (Z.land r (Z.lnot 0x80) mod 2 ^ 32 =? xcb.XCB_CLIENT_MESSAGE)%Z
                 ((r =? 33) || (r =? 161))%Z)
      (seq 0 256) = true) by (vm_compute; reflexivity).
  rewrite forallb_forall in Hall.
  specialize (Hall (Z.to_nat rt)).
  cbv zeta in Hall. rewrite Z2Nat.id in Hall by lia.
  apply eqb_prop, Hall, in_seq. lia.
Qed.

(** X15.  A close event is delivered for an event exactly when it is a
    client message (with or without the sent mark) of format 32 whose type
    is the WM_PROTOCOLS atom and whose first data word is the
    WM_DELETE_WINDOW atom, and the platform window and its [QWindow]
    exist; the window delivered is that [QWindow]. *)
Theorem EventReader_handle_close (i : QEglFSX11Integration)
    (e : xcb.client_message_event_t) (w : QWindow) :
  (0 <= xcb.response_type e < 256)%Z ->
  EventReader_handle i e = Some w <->
  (xcb.response_type e = 33 \/ xcb.response_type e = 161)%Z /\
  xcb.format e = 32%Z /\
  xcb.type e = m_atoms i WM_PROTOCOLS /\
  nth 0 (xcb.data32 e) 0%Z = m_atoms i WM_DELETE_WINDOW /\
  exists pw, m_platformWindow i = Some pw /\ pw_window pw = Some w.
Proof.
  intros Hrt. unfold EventReader_handle. cbv zeta.
  rewrite (response_type_client_message Hrt). split.
  - destruct ((xcb.response_type e =? 33) || (xcb.response_type e =? 161))%Z
      eqn:Er; [|discriminate].
    destruct ((xcb.format e =? 32)
              && (xcb.type e =? m_atoms i WM_PROTOCOLS)
              && (nth 0 (xcb.data32 e) 0 =? m_atoms i WM_DELETE_WINDOW))%Z
      eqn:Ec; [|discriminate].
    apply andb_prop in Ec as [Ec Hd]. apply andb_prop in Ec as [Hf Ht].
    apply Z.eqb_eq in Hd, Hf, Ht.
    apply orb_prop in Er. rewrite !Z.eqb_eq in Er.
    destruct (m_platformWindow i) as [pw|]; [|discriminate].
    intros Hw. repeat split; try assumption. now exists pw.
  - intros (Hr & Hf & Ht & Hd & pw & Hpw & Hw).
    rewrite Hf, Ht, Hd, !Z.eqb_refl, Hpw. cbn [andb].
    destruct Hr as [-> | ->]; exact Hw.
Qed.

Lemma EventReader_handle_close_witness :
  EventReader_handle
    (MkIntegration (fun _ => 7%Z) (Some (MkPlatformWindow (Some 1%N))) 0
       (MkQSize (-1) (-1)))
    (xcb.Event 161 32 0 0 7 [7; 0; 0; 0; 0]%Z)
  = Some 1%N.
Proof.
  apply (@EventReader_handle_close
           (MkIntegration (fun _ => 7%Z) (Some (MkPlatformWindow (Some 1%N))) 0
              (MkQSize (-1) (-1)))
           (xcb.Event 161 32 0 0 7 [7; 0; 0; 0; 0]%Z) 1%N).
  - cbn. lia.
  - cbn. repeat split; try reflexivity.
    + now right.
    + now exists (MkPlatformWindow (Some 1%N)).
Defined.

(** X16.  The event that [sendConnectionEvent(XCB_ATOM_NONE)] sends to
    wake the reader causes no close event, marked as sent or not, as long
    as the WM_PROTOCOLS atom is a real atom; and once [running] is seen
    at zero nothing more is delivered: a run that meets the wake-up event
    and then [running] at zero delivers what it delivered before them. *)
Theorem EventReader_run_wakeup (self i : QEglFSX11Integration)
    (pre post : list observation) (stop : observation)
    (r sq : Z) (sent : bool) :
  m_atoms i WM_PROTOCOLS <> xcb.XCB_ATOM_NONE ->
  obs_running stop = 0%Z ->
  let wake := connectionEvent self xcb.XCB_ATOM_NONE in
  let delivered :=
    xcb.Event
      (if sent then Z.lor (xcb.response_type wake) 0x80
       else xcb.response_type wake)
      (xcb.format wake) sq (xcb.window wake) (xcb.type wake)
      (xcb.data32 wake) in
  sendConnectionEvent self xcb.XCB_ATOM_NONE =
    [xcb.send_event false (m_connectionEventListener self)
       xcb.XCB_EVENT_MASK_NO_EVENT wake;
     xcb.flush] /\
  EventReader_handle i delivered = None /\
  EventReader_run (pre ++ Obs r (Some delivered) i :: stop :: post) =
    EventReader_run pre.
Proof.
  intros Ha Hs. cbv zeta.
  assert (Hh : EventReader_handle i
                 (xcb.Event
                    (if sent
                     then Z.lor (xcb.response_type
                                   (connectionEvent self xcb.XCB_ATOM_NONE)) 0x80
                     else xcb.response_type
                            (connectionEvent self xcb.XCB_ATOM_NONE))
                    (xcb.format (connectionEvent self xcb.XCB_ATOM_NONE)) sq
                    (xcb.window (connectionEvent self xcb.XCB_ATOM_NONE))
                    (xcb.type (connectionEvent self xcb.XCB_ATOM_NONE))
                    (xcb.data32 (connectionEvent self xcb.XCB_ATOM_NONE)))
               = None).
  { assert (Hplain : forall rt,
      EventReader_handle i
        (xcb.Event rt 32 sq (m_connectionEventListener self)
           xcb.XCB_ATOM_NONE [0; 0; 0; 0; 0]%Z) = None).
    { intros rt. unfold EventReader_handle. cbv zeta.
      cbn [xcb.response_type xcb.format xcb.type xcb.data32].
      destruct (_ =? xcb.XCB_CLIENT_MESSAGE)%Z; [|reflexivity].
      apply Z.eqb_neq in Ha. rewrite Z.eqb_sym in Ha.
      rewrite Ha. reflexivity. }
    destruct sent; apply Hplain. }
  split; [reflexivity|]. split; [exact Hh|].
  induction pre as [|o pre IH]; cbn [app EventReader_run obs_running
                                      obs_event obs_integration].
  - rewrite Hh, Hs. now destruct (r =? 0)%Z.
  - destruct (obs_running o =? 0)%Z; [reflexivity|].
    destruct (obs_event o) as [ev|]; [|reflexivity].
    now destruct (EventReader_handle (obs_integration o) ev); rewrite IH.
Qed.

Lemma EventReader_run_wakeup_witness :
  let i := MkIntegration (fun _ => 7%Z) (Some (MkPlatformWindow (Some 1%N))) 5
             (MkQSize (-1) (-1)) in
  let close := xcb.Event 33 32 0 0 7 [7; 0; 0; 0; 0]%Z in
  EventReader_run
    [Obs 1 (Some close) i;
     Obs 1 (Some (xcb.Event 161 32 9 5 0 [0; 0; 0; 0; 0]%Z)) i;
     Obs 0 None i]
  = [1%N].
Proof.
  cbv zeta.
  assert (Ha : (7 <> xcb.XCB_ATOM_NONE)%Z) by discriminate.
  exact (proj2 (proj2
    (@EventReader_run_wakeup
       (MkIntegration (fun _ => 7%Z) (Some (MkPlatformWindow (Some 1%N))) 5
          (MkQSize (-1) (-1)))
       (MkIntegration (fun _ => 7%Z) (Some (MkPlatformWindow (Some 1%N))) 5
          (MkQSize (-1) (-1)))
       [Obs 1 (Some (xcb.Event 33 32 0 0 7 [7; 0; 0; 0; 0]%Z))
          (MkIntegration (fun _ => 7%Z) (Some (MkPlatformWindow (Some 1%N))) 5
             (MkQSize (-1) (-1)))]
       []
       (Obs 0 None
          (MkIntegration (fun _ => 7%Z) (Some (MkPlatformWindow (Some 1%N))) 5
             (MkQSize (-1) (-1))))
       1%Z 9%Z true Ha eq_refl))).
Defined.

(** ** screenSize *)

Lemma QByteArray_split_length (sep : ascii) (s : QByteArray) :
  List.length (QByteArray_split sep s) = S (count_occ ascii_dec s sep).
Proof.
  induction s as [|c t IH]; [reflexivity|].
  cbn [QByteArray_split count_occ].
  destruct (Ascii.eqb_spec c sep) as [-> | Hne].
  - destruct (ascii_dec sep sep); [|contradiction]. cbn. now rewrite IH.
  - destruct (ascii_dec c sep); [contradiction|].
    destruct (QByteArray_split sep t); [discriminate IH | exact IH].
Qed.

Lemma QByteArray_split_none (sep : ascii) (s : QByteArray) :
  ~ In sep s -> QByteArray_split sep s = [s].
Proof.
  induction s as [|c t IH]; intros Hn; [reflexivity|].
  cbn [QByteArray_split].
  destruct (Ascii.eqb_spec c sep) as [-> | Hne].
  - exfalso. apply Hn. now left.
  - rewrite IH; [reflexivity|]. intros Hin. apply Hn. now right.
Qed.

Lemma QByteArray_split_one (sep : ascii) (s : QByteArray) :
  count_occ ascii_dec s sep = 1 ->
  exists a b,
    s = a ++ sep :: b /\ ~ In sep a /\ ~ In sep b /\
    QByteArray_split sep s = [a; b].
Proof.
  induction s as [|c t IH]; [discriminate|].
  cbn [QByteArray_split count_occ].
  destruct (Ascii.eqb_spec c sep) as [-> | Hne].
  - destruct (ascii_dec sep sep); [|contradiction].
    intros H. injection H as H.
    apply (count_occ_not_In ascii_dec) in H.
    exists [], t. split; [reflexivity|]. split; [intros []|].
    split; [exact H|]. now rewrite (@QByteArray_split_none sep t H).
  - destruct (ascii_dec c sep); [contradiction|].
    intros H. destruct (IH H) as (a & b & -> & Ha & Hb & ->).
    exists (c :: a), b. repeat split; try assumption.
    intros [Hc | Hin]; [now apply Hne | now apply Ha].
Qed.

(** X17.  Once [screenSize] has returned a size that is not empty, that
    size is kept: every later call returns it, whatever the environment
    variable and the X server then say. *)
Theorem screenSize_settles (toInt : QByteArray -> Z)
    (self : QEglFSX11Integration) (env env' : QByteArray)
    (attrs attrs' : option (Z * Z)) :
  QSize_isEmpty (screenSize toInt self env attrs) = false ->
  screenSize toInt (withScreenSize self (screenSize toInt self env attrs))
    env' attrs'
  = screenSize toInt self env attrs.
Proof.
  intros H. unfold screenSize at 1. cbn [withScreenSize m_screenSize].
  now rewrite H.
Qed.

Lemma screenSize_settles_witness :
  let self := MkIntegration (fun _ => 0%Z) None 0 (MkQSize (-1) (-1)) in
  screenSize (fun _ => 0%Z)
    (withScreenSize self (MkQSize 800 600)) ["1"; "x"; "1"]%char None
  = MkQSize 800 600.
Proof.
  cbv zeta.
  exact (@screenSize_settles (fun _ => 0%Z)
           (MkIntegration (fun _ => 0%Z) None 0 (MkQSize (-1) (-1)))
           [] ["1"; "x"; "1"]%char (Some (800, 600)%Z) None eq_refl).
Defined.

(** X18.  While the cached size is empty, [screenSize] takes the size
    from [EGLFS_X11_SIZE] exactly when the value holds one [x]: the width
    is read from the text before it and the height from the text after
    it.  With any other number of [x] (none when the variable is unset)
    the size of the root window is used, and when that cannot be had the
    cached size stays as it is. *)
Theorem screenSize_environment (toInt : QByteArray -> Z)
    (self : QEglFSX11Integration) (env : QByteArray)
    (attrs : option (Z * Z)) :
  QSize_isEmpty (m_screenSize self) = true ->
  (count_occ ascii_dec env "x"%char = 1 ->
   exists a b,
     env = a ++ "x"%char :: b /\
     ~ In "x"%char a /\ ~ In "x"%char b /\
     screenSize toInt self env attrs = MkQSize (toInt a) (toInt b)) /\
  (count_occ ascii_dec env "x"%char <> 1 ->
   screenSize toInt self env attrs =
   match attrs with
   | Some (width, height) => MkQSize width height
   | None => m_screenSize self
   end).
Proof.
  intros He. unfold screenSize. rewrite He. cbv zeta.
  rewrite QByteArray_split_length. split.
  - intros H1.
    destruct (QByteArray_split_one _ _ H1) as (a & b & Hs & Ha & Hb & Hsp).
    exists a, b. rewrite H1, Hsp. now repeat split.
  - intros Hn.
    destruct (Nat.eqb_spec (S (count_occ ascii_dec env "x"%char)) 2) as [E|E];
      [lia | reflexivity].
Qed.

Lemma screenSize_environment_witness :
  screenSize (fun s => Z.of_nat (List.length s))
    (MkIntegration (fun _ => 0%Z) None 0 (MkQSize (-1) (-1)))
    ["8"; "0"; "0"; "x"; "6"; "0"; "0"; "x"; "3"; "2"]%char
    (Some (1024, 768)%Z)
  = MkQSize 1024 768.
Proof.
  assert (Hn : count_occ ascii_dec
                 ["8"; "0"; "0"; "x"; "6"; "0"; "0"; "x"; "3"; "2"]%char
                 "x"%char <> 1) by (vm_compute; discriminate).
  exact (proj2 (@screenSize_environment (fun s => Z.of_nat (List.length s))
                  (MkIntegration (fun _ => 0%Z) None 0 (MkQSize (-1) (-1)))
                  ["8"; "0"; "0"; "x"; "6"; "0"; "0"; "x"; "3"; "2"]%char
                  (Some (1024, 768)%Z) eq_refl) Hn).
Defined.
